(** * timemachine: fixed-point accumulation, bonded kernels, device buffers
      and the Langevin integrator

    A shallow embedding of
      - fixed_point.hpp                    (decoders, [fixed_point_overflow]),
      - kernels/k_periodic_torsion.cuh     ([k_periodic_torsion]),
      - kernels/k_log_flat_bottom_bond.cuh ([k_log_flat_bottom_bond]),
      - device_buffer.cu                   ([allocate], [DeviceBuffer]),
      - langevin_integrator.cu             (constructor, [step_fwd]).

    Integer types are [Z] with their wrap-around written out.  The kernels
    are templates over [RealType]; the embedding keeps that parameter as a
    type class of arithmetic operations, instantiated at the real numbers
    where a statement is about the mathematics of the coefficients. *)

From Stdlib Require Import ZArith Lia List String QArith Reals Lra Permutation.
From stdpp Require Import base option list.

Local Open Scope Z_scope.

(** ** Machine integers *)

Module CInt.

Definition two64 : Z := 2 ^ 64.
Definition two128 : Z := 2 ^ 128.

Definition LLONG_MAX : Z := 2 ^ 63 - 1.
Definition LLONG_MIN : Z := - 2 ^ 63.
Definition INT128_MAX : Z := 2 ^ 127 - 1.
Definition INT128_MIN : Z := - 2 ^ 127.

(** The integer types the kernels and the decoders mention. *)
Inductive ctype := ULongLong | LongLong | Int128.

Definition bits (t : ctype) : Z :=
    match t with
    | ULongLong => 64
    | LongLong => 64
    | Int128 => 128
    end.

(** [static_cast<unsigned long long>(z)]. *)
Definition to_ull (z : Z) : Z := z mod two64.

(** [static_cast<long long>(z)]: the low 64 bits read in two's complement. *)
Definition to_ll (z : Z) : Z := (z + 2 ^ 63) mod two64 - 2 ^ 63.

(** [static_cast<__int128>(z)]. *)
Definition to_int128 (z : Z) : Z := (z + 2 ^ 127) mod two128 - 2 ^ 127.

(** Conversion of [z] to the integer type [t]. *)
Definition wrap (t : ctype) (z : Z) : Z :=
    match t with
    | ULongLong => to_ull z
    | LongLong => to_ll z
    | Int128 => to_int128 z
    end.

Definition is_ull (z : Z) : Prop := 0 <= z < two64.
Definition is_ll (z : Z) : Prop := LLONG_MIN <= z <= LLONG_MAX.
Definition is_int128 (z : Z) : Prop := INT128_MIN <= z <= INT128_MAX.

End CInt.

Import CInt.

(** ** fixed_point.hpp *)

Definition FIXED_EXPONENT : Z := 0x1000000000.
Definition FIXED_EXPONENT_DU_DCHARGE : Z := 0x1000000000.
Definition FIXED_EXPONENT_DU_DSIG : Z := 0x2000000000.
Definition FIXED_EXPONENT_DU_DEPS : Z := 0x4000000000.
Definition FIXED_EXPONENT_DU_DW : Z := 0x1000000000.

(** [fixed_point_overflow(__int128 val)]: both comparisons are non-strict. *)
Definition fixed_point_overflow (val : Z) : bool :=
  let max := to_int128 LLONG_MAX in
  let min := to_int128 LLONG_MIN in
  (val >=? max) || (val <=? min).

(** ** The floating-point parameter of the templates

    [RealType] is [float] or [double] in the source.  Its operations, the
    CUDA math functions the kernels call and the conversions from integers
    and decimal literals are the fields of [RealOps]; nothing is assumed
    about rounding.  The input arrays ([coords], [box], [params]) are
    [double] in every instantiation; the embedding reads them at [RealType]
    too, which is the [RealType = double] instance of each kernel. *)

Class RealOps (RealType : Type) := {
  radd : RealType -> RealType -> RealType;
  rsub : RealType -> RealType -> RealType;
  rmul : RealType -> RealType -> RealType;
  rdiv : RealType -> RealType -> RealType;
  rneg : RealType -> RealType;
(** [a < b] *)
  rlt : RealType -> RealType -> bool;
(** [static_cast<RealType>(n)] of an integer [n] *)
  of_Z : Z -> RealType;
(** a decimal literal *)
  of_Q : Q -> RealType;
  rsqrt : RealType -> RealType;
  rexp : RealType -> RealType;
  rlog : RealType -> RealType;
  rexpm1 : RealType -> RealType;
  rlog1p : RealType -> RealType;
  rsin : RealType -> RealType;
  rcos : RealType -> RealType;
  ratan2 : RealType -> RealType -> RealType;
(** [pow(x, n)] at an integer literal [n] *)
  rpow : RealType -> Z -> RealType;
  rnearbyint : RealType -> RealType;
(** [__fmul_rn] / [__dmul_rn] *)
  rmul_rn : RealType -> RealType -> RealType
}.

(** Helpers of the repository that the kernels and the integrator call and
    whose definitions live in headers not covered here
    (kernels/k_fixed_point.cuh, kernels/k_flat_bottom_bond.cuh,
    constants.hpp).  They are parameters of the development. *)
Class HelperOps (RealType : Type) := {
(** result type [unsigned long long] *)
  FLOAT_TO_FIXED_BONDED : RealType -> Z;
(** result type [__int128] *)
  FLOAT_TO_FIXED_ENERGY : RealType -> Z;
(** arguments [k], [r], [rmin], [rmax] *)
  compute_flat_bottom_energy :
    RealType -> RealType -> RealType -> RealType -> RealType;
  BOLTZ : RealType
}.

(** ** Device arrays *)

Section Arrays.
Context {RealType : Type} `{RealOps RealType}.

(** Read of a [const double *] input array.  An out-of-range read is
      undefined in the source; here it yields zero. *)
Definition rd (a : list RealType) (i : nat) : RealType :=
    default (of_Z 0) (a !! i).

(** Read of a [const int *] index array (topology indices are atom
      numbers, kept as [nat]). *)
Definition ri (a : list nat) (i : nat) : nat := default 0%nat (a !! i).

(** [static_cast<RealType>(b)] of a comparison result. *)
Definition of_bool (b : bool) : RealType := of_Z (if b then 1 else 0).

End Arrays.

(** [atomicAdd(buf + i, v)] on an [unsigned long long] array: the addition
    wraps modulo 2^64.  A slot outside the array is left alone (undefined
    in the source). *)
Definition atomicAdd (buf : list Z) (i : nat) (v : Z) : list Z :=
  alter (fun old => to_ull (old + v)) i buf.

(** [buf[i] = v] on an [__int128] array. *)
Definition store128 (buf : list Z) (i : nat) (v : Z) : list Z :=
  <[i := to_int128 v]> buf.

Arguments atomicAdd : simpl never.
Arguments store128 : simpl never.

(** The three output pointers of a kernel; [None] is the null pointer. *)
Record Buffers := mkBuffers {
  du_dx : option (list Z);
  du_dp : option (list Z);
  u : option (list Z)
}.

(** Element types of the three output arrays, as the kernel signatures
    declare them. *)
Record kernel_sig := mkSig {
  du_dx_t : ctype;
  du_dp_t : ctype;
  u_t : ctype
}.

(** [k_periodic_torsion]: [unsigned long long *du_dx, *du_dp, *u]. *)
Definition k_periodic_torsion_sig : kernel_sig :=
  mkSig ULongLong ULongLong ULongLong.

(** [k_log_flat_bottom_bond]: [unsigned long long *du_dx, *du_dp],
    [__int128 *u]. *)
Definition k_log_flat_bottom_bond_sig : kernel_sig :=
  mkSig ULongLong ULongLong Int128.

(** A launch runs the thread body once per thread index of the grid.  The
    threads only interact through the output arrays; [sched] is the order in
    which their updates land. *)
Definition run_threads (body : nat -> Buffers -> Buffers)
    (sched : list nat) (b : Buffers) : Buffers :=
  fold_left (fun acc t => body t acc) sched b.

(** The grid in index order: [nthreads = gridDim.x * blockDim.x]. *)
Definition grid (nthreads : nat) : list nat := seq 0 nthreads.

(** ** fixed_point.hpp: decoders *)

Section Decoders.
Context {RealType : Type} `{RealOps RealType}.

Definition FIXED_TO_FLOAT_DU_DP (EXPONENT : Z) (v : Z) : RealType :=
    rdiv (of_Z (to_ll v)) (of_Z EXPONENT).

Definition FIXED_TO_FLOAT (v : Z) : RealType :=
    rdiv (of_Z (to_ll v)) (of_Z FIXED_EXPONENT).

(** Takes an [__int128]; the cast to [long long] keeps the low 64 bits. *)
Definition FIXED_ENERGY_TO_FLOAT (v : Z) : RealType :=
    rdiv (of_Z (to_ll v)) (of_Z FIXED_EXPONENT).

End Decoders.

(** ** kernels/k_periodic_torsion.cuh *)

Section PeriodicTorsion.
Context {RealType : Type} `{RealOps RealType} `{HelperOps RealType}.

(** A local [RealType a[3]]. *)
Definition vec3 : Type := nat -> RealType.

Definition dot_product (a b : vec3) : RealType :=
  radd (radd (rmul (a 0%nat) (b 0%nat)) (rmul (a 1%nat) (b 1%nat)))
       (rmul (a 2%nat) (b 2%nat)).

Definition cross_product (a b : vec3) : vec3 :=
  fun d =>
    match d with
    | 0%nat => rsub (rmul_rn (a 1%nat) (b 2%nat)) (rmul_rn (a 2%nat) (b 1%nat))
    | 1%nat => rsub (rmul_rn (a 2%nat) (b 0%nat)) (rmul_rn (a 0%nat) (b 2%nat))
    | _ => rsub (rmul_rn (a 0%nat) (b 1%nat)) (rmul_rn (a 1%nat) (b 0%nat))
    end.

(** The three displacement vectors of lines 49-57: plain coordinate
    differences (the kernel has no box argument). *)
Definition torsion_rij (D : nat) (coords : list RealType)
    (i_idx j_idx : nat) : vec3 :=
  fun d => rsub (rd coords (j_idx * D + d)) (rd coords (i_idx * D + d)).

Definition torsion_rkj (D : nat) (coords : list RealType)
    (j_idx k_idx : nat) : vec3 :=
  fun d => rsub (rd coords (j_idx * D + d)) (rd coords (k_idx * D + d)).

Definition torsion_rkl (D : nat) (coords : list RealType)
    (k_idx l_idx : nat) : vec3 :=
  fun d => rsub (rd coords (l_idx * D + d)) (rd coords (k_idx * D + d)).

(** What a thread has computed when it reaches the three output blocks
    (lines 37-108). *)
Record torsion_locals := mkTorsionLocals {
  tl_i_idx : nat;
  tl_j_idx : nat;
  tl_k_idx : nat;
  tl_l_idx : nat;
  tl_d_angle_dR0 : vec3;
  tl_d_angle_dR1 : vec3;
  tl_d_angle_dR2 : vec3;
  tl_d_angle_dR3 : vec3;
  tl_angle : RealType;
  tl_kt_idx : nat;
  tl_phase_idx : nat;
  tl_period_idx : nat;
  tl_kt : RealType;
  tl_phase : RealType;
  tl_period : RealType;
  tl_prefactor : RealType
}.

Definition k_periodic_torsion_locals (D : nat)
    (coords params : list RealType) (torsion_idxs : list nat)
    (t_idx : nat) : torsion_locals :=
  let i_idx := ri torsion_idxs (t_idx * 4 + 0) in
  let j_idx := ri torsion_idxs (t_idx * 4 + 1) in
  let k_idx := ri torsion_idxs (t_idx * 4 + 2) in
  let l_idx := ri torsion_idxs (t_idx * 4 + 3) in
  let rij := torsion_rij D coords i_idx j_idx in
  let rkj := torsion_rkj D coords j_idx k_idx in
  let rkl := torsion_rkl D coords k_idx l_idx in
  let rkj_norm_square :=
    fold_left (fun acc d => radd acc (rmul (rkj d) (rkj d)))
              [0; 1; 2]%nat (of_Z 0) in
  let rkj_norm := rsqrt rkj_norm_square in
  let n1 := cross_product rij rkj in
  let n2 := cross_product rkj rkl in
  let n1_norm_square := dot_product n1 n1 in
  let n2_norm_square := dot_product n2 n2 in
  let n3 := cross_product n1 n2 in
  let rij_dot_rkj := dot_product rij rkj in
  let rkl_dot_rkj := dot_product rkl rkj in
  let d_angle_dR0 : vec3 :=
    fun d => rmul (rdiv rkj_norm n1_norm_square) (n1 d) in
  let d_angle_dR3 : vec3 :=
    fun d => rmul (rdiv (rneg rkj_norm) n2_norm_square) (n2 d) in
  let d_angle_dR1 : vec3 :=
    fun d =>
      rsub (rmul (rsub (rdiv rij_dot_rkj rkj_norm_square) (of_Z 1))
                 (d_angle_dR0 d))
           (rdiv (rmul (d_angle_dR3 d) rkl_dot_rkj) rkj_norm_square) in
  let d_angle_dR2 : vec3 :=
    fun d =>
      rsub (rmul (rsub (rdiv rkl_dot_rkj rkj_norm_square) (of_Z 1))
                 (d_angle_dR3 d))
           (rdiv (rmul (d_angle_dR0 d) rij_dot_rkj) rkj_norm_square) in
  let rkj_n := rsqrt (dot_product rkj rkj) in
  let rkj' : vec3 := fun d => rdiv (rkj d) rkj_n in
  let y := dot_product n3 rkj' in
  let x := dot_product n1 n2 in
  let angle := ratan2 y x in
  let kt_idx := (t_idx * 3 + 0)%nat in
  let phase_idx := (t_idx * 3 + 1)%nat in
  let period_idx := (t_idx * 3 + 2)%nat in
  let kt := rd params kt_idx in
  let phase := rd params phase_idx in
  let period := rd params period_idx in
  let prefactor :=
    rmul (rmul kt (rsin (rsub (rmul period angle) phase))) period in
  mkTorsionLocals i_idx j_idx k_idx l_idx
    d_angle_dR0 d_angle_dR1 d_angle_dR2 d_angle_dR3
    angle kt_idx phase_idx period_idx kt phase period prefactor.

(** The [if (du_dx)] block, lines 110-117. *)
Definition torsion_du_dx (D : nat) (tl : torsion_locals)
    (buf : list Z) : list Z :=
  fold_left
    (fun buf d =>
       let buf := atomicAdd buf (tl_i_idx tl * D + d)
         (FLOAT_TO_FIXED_BONDED (rmul (tl_d_angle_dR0 tl d) (tl_prefactor tl))) in
       let buf := atomicAdd buf (tl_j_idx tl * D + d)
         (FLOAT_TO_FIXED_BONDED (rmul (tl_d_angle_dR1 tl d) (tl_prefactor tl))) in
       let buf := atomicAdd buf (tl_k_idx tl * D + d)
         (FLOAT_TO_FIXED_BONDED (rmul (tl_d_angle_dR2 tl d) (tl_prefactor tl))) in
       atomicAdd buf (tl_l_idx tl * D + d)
         (FLOAT_TO_FIXED_BONDED (rmul (tl_d_angle_dR3 tl d) (tl_prefactor tl))))
    [0; 1; 2]%nat buf.

(** The [if (du_dp)] block, lines 119-127. *)
Definition torsion_du_dp (tl : torsion_locals) (buf : list Z) : list Z :=
  let s := rsin (rsub (rmul (tl_period tl) (tl_angle tl)) (tl_phase tl)) in
  let du_dkt :=
    radd (of_Z 1)
         (rcos (rsub (rmul (tl_period tl) (tl_angle tl)) (tl_phase tl))) in
  let du_dphase := rmul (tl_kt tl) s in
  let du_dperiod := rmul (rmul (rneg (tl_kt tl)) s) (tl_angle tl) in
  let buf := atomicAdd buf (tl_kt_idx tl) (FLOAT_TO_FIXED_BONDED du_dkt) in
  let buf := atomicAdd buf (tl_phase_idx tl) (FLOAT_TO_FIXED_BONDED du_dphase) in
  atomicAdd buf (tl_period_idx tl) (FLOAT_TO_FIXED_BONDED du_dperiod).

(** The energy of one torsion term, the argument of the encoder on
    line 130. *)
Definition torsion_energy (tl : torsion_locals) : RealType :=
  rmul (tl_kt tl)
       (radd (of_Z 1)
             (rcos (rsub (rmul (tl_period tl) (tl_angle tl)) (tl_phase tl)))).

(** The [if (u)] block, lines 129-131. *)
Definition torsion_u (tl : torsion_locals) (buf : list Z) : list Z :=
  atomicAdd buf (tl_i_idx tl) (FLOAT_TO_FIXED_BONDED (torsion_energy tl)).

(** One thread of [k_periodic_torsion<RealType, D>]. *)
Definition k_periodic_torsion_thread (D T : nat)
    (coords params : list RealType) (torsion_idxs : list nat)
    (t_idx : nat) (b : Buffers) : Buffers :=
  if (T <=? t_idx)%nat then b
  else
    let tl := k_periodic_torsion_locals D coords params torsion_idxs t_idx in
    let du_dx' :=
      match du_dx b with
      | Some buf => Some (torsion_du_dx D tl buf)
      | None => None
      end in
    let du_dp' :=
      match du_dp b with
      | Some buf => Some (torsion_du_dp tl buf)
      | None => None
      end in
    let u' :=
      match u b with
      | Some buf => Some (torsion_u tl buf)
      | None => None
      end in
    mkBuffers du_dx' du_dp' u'.

(** The kernel over a grid of [nthreads] threads. *)
Definition k_periodic_torsion (D T : nat) (nthreads : nat)
    (coords params : list RealType) (torsion_idxs : list nat)
    (b : Buffers) : Buffers :=
  run_threads (k_periodic_torsion_thread D T coords params torsion_idxs)
              (grid nthreads) b.

End PeriodicTorsion.

(** ** kernels/k_log_flat_bottom_bond.cuh *)

Section LogFlatBottomBond.
Context {RealType : Type} `{RealOps RealType} `{HelperOps RealType}.

Definition LOG_2 : RealType :=
  of_Q (693147180559945309417232121 # 1000000000000000000000000000).

Definition stable_log_1_exp_neg (x : RealType) : RealType :=
  if rlt x LOG_2 then rlog (rneg (rexpm1 (rneg x)))
  else rlog1p (rneg (rexp (rneg x))).

(** The displacement of lines 49-50 along dimension [d]: the coordinate
    difference, minus the box length times the nearest integer to their
    ratio. *)
Definition lfbb_delta (coords box : list RealType)
    (src_idx dst_idx : nat) (d : nat) : RealType :=
  let delta := rsub (rd coords (src_idx * 3 + d)) (rd coords (dst_idx * 3 + d)) in
  rsub delta
       (rmul (rd box (d * 3 + d))
             (rnearbyint (rdiv delta (rd box (d * 3 + d))))).

(** What a thread has computed when it reaches the output blocks. *)
Record lfbb_locals := mkLfbbLocals {
  bl_src_idx : nat;
  bl_dst_idx : nat;
  bl_k_idx : nat;
  bl_rmin_idx : nat;
  bl_rmax_idx : nat;
  bl_k : RealType;
  bl_rmin : RealType;
  bl_rmax : RealType;
  bl_dx : nat -> RealType;
  bl_r : RealType;
  bl_r_gt_rmax : RealType;
  bl_r_lt_rmin : RealType;
  bl_nrg : RealType;
  bl_prefactor : RealType
}.

Definition k_log_flat_bottom_bond_locals
    (coords box params : list RealType) (bond_idxs : list nat)
    (beta : RealType) (b_idx : nat) : lfbb_locals :=
  let num_atoms := 2%nat in
  let atoms_idx := (b_idx * num_atoms)%nat in
  let src_idx := ri bond_idxs (atoms_idx + 0) in
  let dst_idx := ri bond_idxs (atoms_idx + 1) in
  let num_params := 3%nat in
  let params_idx := (b_idx * num_params)%nat in
  let k_idx := (params_idx + 0)%nat in
  let rmin_idx := (params_idx + 1)%nat in
  let rmax_idx := (params_idx + 2)%nat in
  let k := rd params k_idx in
  let rmin := rd params rmin_idx in
  let rmax := rd params rmax_idx in
  let dx := lfbb_delta coords box src_idx dst_idx in
  let r2 :=
    fold_left (fun acc d => radd acc (rmul (dx d) (dx d)))
              [0; 1; 2]%nat (of_Z 0) in
  let r := rsqrt r2 in
  let r_gt_rmax := of_bool (rlt rmax r) in
  let r_lt_rmin := of_bool (rlt r rmin) in
  let nrg := compute_flat_bottom_energy k r rmin rmax in
  let prefactor :=
    rdiv (rneg (rexp (rmul (rneg beta) nrg)))
         (rsub (of_Z 1) (rexp (rmul (rneg beta) nrg))) in
  mkLfbbLocals src_idx dst_idx k_idx rmin_idx rmax_idx k rmin rmax
    dx r r_gt_rmax r_lt_rmin nrg prefactor.

(** The energy of one bond, [u_real] of line 64. *)
Definition lfbb_u_real (beta : RealType) (bl : lfbb_locals) : RealType :=
  rdiv (rneg (stable_log_1_exp_neg (rmul beta (bl_nrg bl)))) beta.

(** The [if (u)] block, lines 62-67: an assignment to slot [b_idx]. *)
Definition lfbb_u (beta : RealType) (b_idx : nat) (bl : lfbb_locals)
    (buf : list Z) : list Z :=
  store128 buf b_idx (FLOAT_TO_FIXED_ENERGY (lfbb_u_real beta bl)).

(** The [if (du_dp)] block, lines 71-86. *)
Definition lfbb_du_dp (bl : lfbb_locals) (buf : list Z) : list Z :=
  let r := bl_r bl in
  let du_dk_real :=
    radd (rmul (bl_r_gt_rmax bl)
               (rdiv (rpow (rsub r (bl_rmax bl)) 4) (of_Z 4)))
         (rmul (bl_r_lt_rmin bl)
               (rdiv (rpow (rsub r (bl_rmin bl)) 4) (of_Z 4))) in
  let du_drmin_real :=
    rmul (bl_r_lt_rmin bl)
         (rmul (rneg (bl_k bl)) (rpow (rsub r (bl_rmin bl)) 3)) in
  let du_drmax_real :=
    rmul (bl_r_gt_rmax bl)
         (rmul (rneg (bl_k bl)) (rpow (rsub r (bl_rmax bl)) 3)) in
  let du_dk := FLOAT_TO_FIXED_BONDED (rmul du_dk_real (bl_prefactor bl)) in
  let du_drmin := FLOAT_TO_FIXED_BONDED (rmul du_drmin_real (bl_prefactor bl)) in
  let du_drmax := FLOAT_TO_FIXED_BONDED (rmul du_drmax_real (bl_prefactor bl)) in
  let buf := atomicAdd buf (bl_k_idx bl) du_dk in
  let buf := atomicAdd buf (bl_rmin_idx bl) du_drmin in
  atomicAdd buf (bl_rmax_idx bl) du_drmax.

(** The [if (du_dx)] block, lines 88-104. *)
Definition lfbb_du_dx (bl : lfbb_locals) (buf : list Z) : list Z :=
  let r := bl_r bl in
  let du_dr :=
    rmul (bl_k bl)
         (radd (rmul (bl_r_gt_rmax bl) (rpow (rsub r (bl_rmax bl)) 3))
               (rmul (bl_r_lt_rmin bl) (rpow (rsub r (bl_rmin bl)) 3))) in
  fold_left
    (fun buf d =>
       let du_dsrc_real := rdiv (rmul du_dr (bl_dx bl d)) r in
       let du_ddst_real := rneg du_dsrc_real in
       let du_dsrc :=
         FLOAT_TO_FIXED_BONDED (rmul (bl_prefactor bl) du_dsrc_real) in
       let du_ddst :=
         FLOAT_TO_FIXED_BONDED (rmul (bl_prefactor bl) du_ddst_real) in
       let buf := atomicAdd buf (bl_src_idx bl * 3 + d) du_dsrc in
       atomicAdd buf (bl_dst_idx bl * 3 + d) du_ddst)
    [0; 1; 2]%nat buf.

(** One thread of [k_log_flat_bottom_bond<RealType>]. *)
Definition k_log_flat_bottom_bond_thread (B : nat)
    (coords box params : list RealType) (bond_idxs : list nat)
    (beta : RealType) (b_idx : nat) (b : Buffers) : Buffers :=
  if (B <=? b_idx)%nat then b
  else
    let bl :=
      k_log_flat_bottom_bond_locals coords box params bond_idxs beta b_idx in
    let u' :=
      match u b with
      | Some buf => Some (lfbb_u beta b_idx bl buf)
      | None => None
      end in
    let du_dp' :=
      match du_dp b with
      | Some buf => Some (lfbb_du_dp bl buf)
      | None => None
      end in
    let du_dx' :=
      match du_dx b with
      | Some buf => Some (lfbb_du_dx bl buf)
      | None => None
      end in
    mkBuffers du_dx' du_dp' u'.

(** The kernel over a grid of [nthreads] threads. *)
Definition k_log_flat_bottom_bond (B : nat) (nthreads : nat)
    (coords box params : list RealType) (bond_idxs : list nat)
    (beta : RealType) (b : Buffers) : Buffers :=
  run_threads
    (k_log_flat_bottom_bond_thread B coords box params bond_idxs beta)
    (grid nthreads) b.

End LogFlatBottomBond.

(** ** device_buffer.cu *)

Module DeviceBufferImpl.

(** The element types the file instantiates [DeviceBuffer] at. *)
Inductive elem_type :=
| EDouble | EFloat | EInt | EChar | EUnsignedInt | EUnsignedLongLong | EInt128.

Definition sizeof (T : elem_type) : Z :=
  match T with
  | EDouble => 8
  | EFloat => 4
  | EInt => 4
  | EChar => 1
  | EUnsignedInt => 4
  | EUnsignedLongLong => 8
  | EInt128 => 16
  end.

(** [std::size_t] is 64 bits wide; its arithmetic wraps. *)
Definition to_size_t (z : Z) : Z := z mod two64.

(** An operation either returns or throws. *)
Inductive result (A : Type) :=
| Ok (a : A)
| Throw (what : string).
Arguments Ok {A} _.
Arguments Throw {A} _.

Record DeviceBuffer := mkDeviceBuffer {
  size : Z;
  data : Z
}.

Section WithDevice.

(** The device and its allocator ([cudaSafeMalloc] of gpu_utils.cuh, a
    parameter here): a request for a number of bytes returns a pointer or
    throws, and leaves the device in a new state. *)
Variable Device : Type.
Variable cudaSafeMalloc : Device -> Z -> result Z * Device.

Definition allocate (T : elem_type) (length : Z) (dev : Device)
    : result Z * Device :=
  if length <? 1
  then (Throw "device buffer length must at least be 1", dev)
  else cudaSafeMalloc dev (to_size_t (length * sizeof T)).

(** The constructor: [size(length * sizeof(T)), data(allocate<T>(length))]. *)
Definition DeviceBuffer_new (T : elem_type) (length : Z) (dev : Device)
    : result DeviceBuffer * Device :=
  let size := to_size_t (length * sizeof T) in
  match allocate T length dev with
  | (Ok data, dev') => (Ok (mkDeviceBuffer size data), dev')
  | (Throw what, dev') => (Throw what, dev')
  end.

End WithDevice.

(** A device that records each request and never runs out of memory: the
    state is the list of sizes requested so far, the pointer returned is
    the request's number. *)
Definition recording_malloc (dev : list Z) (nbytes : Z)
    : result Z * list Z :=
  (Ok (Z.of_nat (length dev)), dev ++ [nbytes]).

End DeviceBufferImpl.

(** ** Potentials and their runner *)

(** A batch of atomic additions, as (slot, value) pairs, applied in list
    order. *)
Definition apply_adds (adds : list (nat * Z)) (buf : list Z) : list Z :=
  fold_left (fun acc a => atomicAdd acc (fst a) (snd a)) adds buf.

(** The sum of the values a batch sends to slot [s]. *)
Definition sum_at (s : nat) (adds : list (nat * Z)) : Z :=
  fold_right (fun a acc => if Nat.eqb (fst a) s then snd a + acc else acc)
             0 adds.

Section Potentials.
Context {RealType : Type} `{RealOps RealType} `{HelperOps RealType}.

(** The interface [Potential::execute_device(N, P, d_x, d_p, d_box, d_du_dx,
    d_du_dp, d_u, stream)], as the declaration of [NonbondedPairList]
    overrides it.  The three output pointers travel as [Buffers]. *)
Record Potential := mkPotential {
  execute_device :
    nat -> nat -> list RealType -> list RealType -> list RealType ->
    Buffers -> Buffers
}.

(** A potential together with its parameter buffer. *)
Record BoundPotential := mkBoundPotential {
  potential : Potential;
  bp_P : nat;
  bp_d_p : list RealType
}.

(** Modelled from the spec: the accumulate-only contract of section 4.2
    (potential.cu and the bodies of the [execute_device] overrides are
    missing from the sources).  A potential adds a batch of encoded contributions, fixed by
    its inputs, into each non-null output array, and a null pointer stays
    null. *)
Definition accumulates (pot : Potential) : Prop :=
  forall N P d_x d_p d_box,
  exists adds_dx adds_dp adds_u : list (nat * Z),
  forall b,
    execute_device pot N P d_x d_p d_box b =
    mkBuffers (apply_adds adds_dx <$> du_dx b)
              (apply_adds adds_dp <$> du_dp b)
              (apply_adds adds_u <$> u b).

(** Modelled from the spec: [PeriodicTorsion::execute_device] (its file is
    missing from the sources) launches [k_periodic_torsion<RealType, 3>] on the caller's
    three output arrays with one thread per torsion. *)
Definition PeriodicTorsion (T : nat) (torsion_idxs : list nat) : Potential :=
  mkPotential (fun N P d_x d_p d_box b =>
    k_periodic_torsion 3 T T d_x d_p torsion_idxs b).

(** Zeroing of an output array. *)
Definition zeroed (buf : list Z) : list Z := replicate (length buf) 0.

(** Modelled from the spec: [PotentialRunner::execute_potentials] of section
    4.3 (potential_runner.cu is missing from the sources).  It zeroes every
    non-null output array, then dispatches the bound potentials in list
    order against the same positions and box, each with its own
    parameters. *)
Definition execute_potentials (bps : list BoundPotential) (N : nat)
    (d_x d_box : list RealType) (b : Buffers) : Buffers :=
  fold_left
    (fun acc bp =>
       execute_device (potential bp) N (bp_P bp) d_x (bp_d_p bp) d_box acc)
    bps
    (mkBuffers (zeroed <$> du_dx b) (zeroed <$> du_dp b) (zeroed <$> u b)).

End Potentials.

Arguments Potential RealType : clear implicits.
Arguments BoundPotential RealType : clear implicits.

(** ** langevin_integrator.cu *)

Section Langevin.
Context {RealType : Type} `{RealOps RealType} `{HelperOps RealType}.

(** cuRAND: the state of a generator, a fresh default pseudo-random
    generator, seeding, and a draw of [n] normal variates with the given
    mean and standard deviation (the [i]-th variate of the draw is the
    function's value at [i]). *)
Variable Rng : Type.
Variable curandCreateGenerator : Rng.
Variable curandSetPseudoRandomGeneratorSeed : Rng -> Z -> Rng.
Variable templateCurandNormal :
  Rng -> nat -> RealType -> RealType -> (nat -> RealType) * Rng.

(** [PotentialRunner::execute_potentials] as called by [step_fwd]: a
    parameter of the integrator. *)
Variable BP : Type.
Variable runner_execute_potentials :
  list BP -> nat -> list RealType -> list RealType -> Buffers -> Buffers.

(** The launch of [update_forward_baoab<double>] (kernels/k_integrator.cuh,
    a parameter here) with arguments
    [(N, D, ca, d_idxs, d_cbs, d_ccs, d_noise, d_x_t, d_v_t, d_du_dx, dt)];
    it returns the new contents of [d_x_t] and [d_v_t]. *)
Variable update_forward_baoab :
  nat -> nat -> RealType -> option (list nat) -> list RealType ->
  list RealType -> list RealType -> list RealType -> list RealType ->
  list Z -> RealType -> list RealType * list RealType.

(** Modelled from the spec: [round_up_even] (math_utils.cuh is missing from
    the sources) pads a count to an even number. *)
Definition round_up_even (n : nat) : nat := (n + n mod 2)%nat.

(** A fresh device allocation of [n] elements: its contents are whatever
    the memory held ([garbage]). *)
Definition cudaSafeMalloc_array {A : Type} (n : nat) (garbage : nat -> A)
    : list A :=
  map garbage (seq 0 n).

(** [cudaMemsetAsync(buf, 0, n * sizeof( *buf))]. *)
Definition memset_zero (n : nat) (buf : list Z) : list Z :=
  replicate (Nat.min n (length buf)) 0 ++ drop n buf.

(** A kernel writing [n] values to the front of an array. *)
Definition write_front {A : Type} (n : nat) (vals : nat -> A)
    (buf : list A) : list A :=
  map vals (seq 0 (Nat.min n (length buf))) ++ drop n buf.

Record LangevinIntegrator := mkLangevinIntegrator {
  N_ : nat;
  temperature_ : RealType;
  dt_ : RealType;
  friction_ : RealType;
  ca_ : RealType;
  d_cbs_ : list RealType;
  d_ccs_ : list RealType;
  cr_rng_ : Rng;
  d_noise_ : list RealType;
  d_du_dx_ : list Z
}.

(** The constructor.  [noise_garbage] and [du_dx_garbage] are the contents
    of the two scratch arrays it allocates and does not initialise. *)
Definition LangevinIntegrator_new (N : nat) (masses : list RealType)
    (temperature dt friction : RealType) (seed : Z)
    (noise_garbage : nat -> RealType) (du_dx_garbage : nat -> Z)
    : LangevinIntegrator :=
  let ca := rexp (rmul (rneg friction) dt) in
  let kT := rmul BOLTZ temperature in
  let ccs_adjustment :=
    rsqrt (rsub (of_Z 1) (rexp (rmul (rmul (of_Z (-2)) friction) dt))) in
  let h_cbs := map (fun i => rdiv dt (rd masses i)) (seq 0 N) in
  let h_ccs :=
    map (fun i => rmul ccs_adjustment (rsqrt (rdiv kT (rd masses i))))
        (seq 0 N) in
  let d_cbs := h_cbs in
  let d_ccs := h_ccs in
  let cr_rng := curandCreateGenerator in
  let d_noise := cudaSafeMalloc_array (round_up_even (N * 3)) noise_garbage in
  let cr_rng := curandSetPseudoRandomGeneratorSeed cr_rng (to_ull seed) in
  let d_du_dx := cudaSafeMalloc_array (N * 3) du_dx_garbage in
  mkLangevinIntegrator N temperature dt friction ca d_cbs d_ccs
    cr_rng d_noise d_du_dx.

Definition get_temperature (I : LangevinIntegrator) : RealType :=
  temperature_ I.

(** [step_fwd]: the new integrator state and the new contents of [d_x_t]
    and [d_v_t]. *)
Definition step_fwd (I : LangevinIntegrator) (bps : list BP)
    (d_x_t d_v_t d_box_t : list RealType) (d_idxs : option (list nat))
    : LangevinIntegrator * (list RealType * list RealType) :=
  let D := 3%nat in
  let d_du_dx := memset_zero (N_ I * D) (d_du_dx_ I) in
  let out :=
    runner_execute_potentials bps (N_ I) d_x_t d_box_t
      (mkBuffers (Some d_du_dx) None None) in
  let d_du_dx := default d_du_dx (du_dx out) in
  let '(draw, cr_rng) :=
    templateCurandNormal (cr_rng_ I) (round_up_even (N_ I * D))
      (of_Z 0) (of_Z 1) in
  let d_noise := write_front (round_up_even (N_ I * D)) draw (d_noise_ I) in
  let xv :=
    update_forward_baoab (N_ I) D (ca_ I) d_idxs (d_cbs_ I) (d_ccs_ I)
      d_noise d_x_t d_v_t d_du_dx (dt_ I) in
  (mkLangevinIntegrator (N_ I) (temperature_ I) (dt_ I) (friction_ I)
     (ca_ I) (d_cbs_ I) (d_ccs_ I) cr_rng d_noise d_du_dx,
   xv).

(** [initialize] and [finalize] have empty bodies. *)
Definition initialize (I : LangevinIntegrator) (bps : list BP)
    (d_x_t d_v_t d_box_t : list RealType) (d_idxs : option (list nat))
    : LangevinIntegrator * (list RealType * list RealType) :=
  (I, (d_x_t, d_v_t)).

Definition finalize (I : LangevinIntegrator) (bps : list BP)
    (d_x_t d_v_t d_box_t : list RealType) (d_idxs : option (list nat))
    : LangevinIntegrator * (list RealType * list RealType) :=
  (I, (d_x_t, d_v_t)).

(** [n] calls of [step_fwd] in a row on the caller's position and velocity
    arrays: the integrator state reached and the positions and velocities
    after each step. *)
Fixpoint run_steps (n : nat) (I : LangevinIntegrator) (bps : list BP)
    (d_x_t d_v_t d_box_t : list RealType) (d_idxs : option (list nat))
    : LangevinIntegrator * list (list RealType * list RealType) :=
  match n with
  | O => (I, [])
  | S n' =>
      let '(I', (x', v')) := step_fwd I bps d_x_t d_v_t d_box_t d_idxs in
      let '(I'', traj) := run_steps n' I' bps x' v' d_box_t d_idxs in
      (I'', (x', v') :: traj)
  end.

(** The fields a step reads but never writes. *)
Definition same_coefficients (I I' : LangevinIntegrator) : Prop :=
  N_ I' = N_ I /\
  temperature_ I' = temperature_ I /\
  dt_ I' = dt_ I /\
  friction_ I' = friction_ I /\
  ca_ I' = ca_ I /\
  d_cbs_ I' = d_cbs_ I /\
  d_ccs_ I' = d_ccs_ I.

End Langevin.

Arguments LangevinIntegrator RealType Rng : clear implicits.

(** ** The instance at the real numbers

    [RealType] read as the field of real numbers: every operation is exact.
    This is the reading under which the integrator's coefficients are
    compared with their closed forms, and it gives the kernels concrete
    inputs to run on. *)

Module RealModel.

(** The nearest integer, ties to the even one (the default rounding mode
    [nearbyint] works in). *)
Definition Znearbyint (x : R) : Z :=
  let f := Zfloor x in
  let frac := (x - IZR f)%R in
  if Rlt_dec frac (1 / 2) then f
  else if Rlt_dec (1 / 2) frac then f + 1
  else if Z.even f then f else f + 1.

Definition Rnearbyint (x : R) : R := IZR (Znearbyint x).

Definition Ratan2 (y x : R) : R :=
  if Rlt_dec 0 x then atan (y / x)
  else if Rlt_dec x 0 then
    if Rle_dec 0 y then (atan (y / x) + PI)%R else (atan (y / x) - PI)%R
  else if Rlt_dec 0 y then (PI / 2)%R
  else if Rlt_dec y 0 then (- (PI / 2))%R
  else 0%R.

#[export] Instance R_RealOps : RealOps R := {|
  radd := Rplus;
  rsub := Rminus;
  rmul := Rmult;
  rdiv := Rdiv;
  rneg := Ropp;
  rlt := fun a b => if Rlt_dec a b then true else false;
  of_Z := IZR;
  of_Q := Q2R;
  rsqrt := sqrt;
  rexp := exp;
  rlog := ln;
  rexpm1 := fun x => (exp x - 1)%R;
  rlog1p := fun x => ln (1 + x);
  rsin := sin;
  rcos := cos;
  ratan2 := Ratan2;
  rpow := powerRZ;
  rnearbyint := Rnearbyint;
  rmul_rn := Rmult
|}.

(** Modelled from the spec: the encoder of section 4.1
    (kernels/k_fixed_point.cuh is missing from the sources) multiplies by the
    channel's exponent and rounds to the nearest integer of the target
    width. *)
Definition R_FLOAT_TO_FIXED_BONDED (v : R) : Z :=
  to_ull (Znearbyint (v * IZR FIXED_EXPONENT)).

(** Modelled from the spec: the energy encoder, as above, at the 128-bit
    width of the energy channel. *)
Definition R_FLOAT_TO_FIXED_ENERGY (v : R) : Z :=
  to_int128 (Znearbyint (v * IZR FIXED_EXPONENT)).

(** The flat-bottom energy at the real numbers (its header,
    kernels/k_flat_bottom_bond.cuh, is a parameter of the kernels): the
    quartic whose derivatives are the ones
    [k_log_flat_bottom_bond] computes for [k], [rmin], [rmax] and [r]. *)
Definition R_compute_flat_bottom_energy (k r rmin rmax : R) : R :=
  (k / 4 *
   ((if Rlt_dec r rmin then 1 else 0) * powerRZ (r - rmin) 4 +
    (if Rlt_dec rmax r then 1 else 0) * powerRZ (r - rmax) 4))%R.

(** The Boltzmann constant in kJ/(mol K), for [BOLTZ] of constants.hpp. *)
Definition R_BOLTZ : R := (8314462618 / 1000000000000)%R.

#[export] Instance R_HelperOps : HelperOps R := {|
  FLOAT_TO_FIXED_BONDED := R_FLOAT_TO_FIXED_BONDED;
  FLOAT_TO_FIXED_ENERGY := R_FLOAT_TO_FIXED_ENERGY;
  compute_flat_bottom_energy := R_compute_flat_bottom_energy;
  BOLTZ := R_BOLTZ
|}.

End RealModel.

Import RealModel.

(** ** Predicates used in the statements *)

(** A wide value has left the range of [long long] when it is below
    [LLONG_MIN] or above [LLONG_MAX]. *)
Definition outside_long_long (v : Z) : Prop := v < LLONG_MIN \/ LLONG_MAX < v.


(** The values of an integer type. *)
Definition fits (w : ctype) (z : Z) : Prop := wrap w z = z.

(** An update [f] of an output array of element type [w] is accumulate-only
    when there is one contribution per slot, fixed before the array's
    contents are looked at, and [f] leaves in every slot the prior value
    plus that contribution (in the arithmetic of [w]). *)
Definition accumulates_into (w : ctype) (f : list Z -> list Z) : Prop :=
  exists delta : nat -> Z,
  forall buf, Forall (fits w) buf ->
  forall s, f buf !! s = (fun old => wrap w (old + delta s)) <$> buf !! s.

(** What a launch [k] does to one of its three output arrays, the other two
    pointers being given. *)
Definition on_du_dx (k : Buffers -> Buffers) (dp en : option (list Z))
    (buf : list Z) : list Z :=
  default buf (du_dx (k (mkBuffers (Some buf) dp en))).

Definition on_du_dp (k : Buffers -> Buffers) (dx en : option (list Z))
    (buf : list Z) : list Z :=
  default buf (du_dp (k (mkBuffers dx (Some buf) en))).

Definition on_u (k : Buffers -> Buffers) (dx dp : option (list Z))
    (buf : list Z) : list Z :=
  default buf (u (k (mkBuffers dx dp (Some buf)))).

(** The batch of a whole launch: the batches of the threads of the schedule
    that pass the bounds check, one after the other. *)
Definition launch_batch (bound : nat) (per_thread : nat -> list (nat * Z))
    (sched : list nat) : list (nat * Z) :=
  flat_map (fun t => if (bound <=? t)%nat then [] else per_thread t) sched.

Section Batches.
Context {RealType : Type} `{RealOps RealType} `{HelperOps RealType}.

(** The additions of the three output blocks of one torsion thread, in
    program order. *)
Definition torsion_adds_dx (D : nat) (tl : torsion_locals)
    : list (nat * Z) :=
  flat_map
    (fun d =>
       [ ((tl_i_idx tl * D + d)%nat,
          FLOAT_TO_FIXED_BONDED (rmul (tl_d_angle_dR0 tl d) (tl_prefactor tl)));
         ((tl_j_idx tl * D + d)%nat,
          FLOAT_TO_FIXED_BONDED (rmul (tl_d_angle_dR1 tl d) (tl_prefactor tl)));
         ((tl_k_idx tl * D + d)%nat,
          FLOAT_TO_FIXED_BONDED (rmul (tl_d_angle_dR2 tl d) (tl_prefactor tl)));
         ((tl_l_idx tl * D + d)%nat,
          FLOAT_TO_FIXED_BONDED (rmul (tl_d_angle_dR3 tl d) (tl_prefactor tl))) ])
    [0; 1; 2]%nat.

Definition torsion_adds_dp (tl : torsion_locals) : list (nat * Z) :=
  let s := rsin (rsub (rmul (tl_period tl) (tl_angle tl)) (tl_phase tl)) in
  [ (tl_kt_idx tl,
     FLOAT_TO_FIXED_BONDED
       (radd (of_Z 1)
          (rcos (rsub (rmul (tl_period tl) (tl_angle tl)) (tl_phase tl)))));
    (tl_phase_idx tl, FLOAT_TO_FIXED_BONDED (rmul (tl_kt tl) s));
    (tl_period_idx tl,
     FLOAT_TO_FIXED_BONDED (rmul (rmul (rneg (tl_kt tl)) s) (tl_angle tl))) ].

Definition torsion_adds_u (tl : torsion_locals) : list (nat * Z) :=
  [ (tl_i_idx tl, FLOAT_TO_FIXED_BONDED (torsion_energy tl)) ].

(** The additions of the two gradient blocks of one bond thread. *)
Definition lfbb_adds_dp (bl : lfbb_locals) : list (nat * Z) :=
  let r := bl_r bl in
  [ (bl_k_idx bl,
     FLOAT_TO_FIXED_BONDED
       (rmul (radd (rmul (bl_r_gt_rmax bl)
                         (rdiv (rpow (rsub r (bl_rmax bl)) 4) (of_Z 4)))
                   (rmul (bl_r_lt_rmin bl)
                         (rdiv (rpow (rsub r (bl_rmin bl)) 4) (of_Z 4))))
             (bl_prefactor bl)));
    (bl_rmin_idx bl,
     FLOAT_TO_FIXED_BONDED
       (rmul (rmul (bl_r_lt_rmin bl)
                   (rmul (rneg (bl_k bl)) (rpow (rsub r (bl_rmin bl)) 3)))
             (bl_prefactor bl)));
    (bl_rmax_idx bl,
     FLOAT_TO_FIXED_BONDED
       (rmul (rmul (bl_r_gt_rmax bl)
                   (rmul (rneg (bl_k bl)) (rpow (rsub r (bl_rmax bl)) 3)))
             (bl_prefactor bl))) ].

Definition lfbb_adds_dx (bl : lfbb_locals) : list (nat * Z) :=
  let r := bl_r bl in
  let du_dr :=
    rmul (bl_k bl)
         (radd (rmul (bl_r_gt_rmax bl) (rpow (rsub r (bl_rmax bl)) 3))
               (rmul (bl_r_lt_rmin bl) (rpow (rsub r (bl_rmin bl)) 3))) in
  flat_map
    (fun d =>
       let du_dsrc_real := rdiv (rmul du_dr (bl_dx bl d)) r in
       [ ((bl_src_idx bl * 3 + d)%nat,
          FLOAT_TO_FIXED_BONDED (rmul (bl_prefactor bl) du_dsrc_real));
         ((bl_dst_idx bl * 3 + d)%nat,
          FLOAT_TO_FIXED_BONDED (rmul (bl_prefactor bl) (rneg du_dsrc_real))) ])
    [0; 1; 2]%nat.

End Batches.

(** A launch step that treats the three output arrays independently of one
    another, and a null pointer as nothing to do. *)
Definition lift3 (gx gp gu : list Z -> list Z) (b : Buffers) : Buffers :=
  mkBuffers (gx <$> du_dx b) (gp <$> du_dp b) (gu <$> u b).

(** The per-thread updates of one array, composed along a schedule. *)
Definition along (g : nat -> list Z -> list Z) (sched : list nat)
    (buf : list Z) : list Z :=
  fold_left (fun acc t => g t acc) sched buf.

(** A launch honours its null output pointers when a null pointer stays
    null, a non-null one stays non-null, and what is left in a non-null
    array is the same whatever the other two pointers are. *)
Definition honours_null_pointers (k : Buffers -> Buffers) : Prop :=
  (forall dp en, du_dx (k (mkBuffers None dp en)) = None) /\
  (forall dx en, du_dp (k (mkBuffers dx None en)) = None) /\
  (forall dx dp, u (k (mkBuffers dx dp None)) = None) /\
  (forall buf dp en dp' en',
     is_Some (du_dx (k (mkBuffers (Some buf) dp en))) /\
     du_dx (k (mkBuffers (Some buf) dp en)) =
     du_dx (k (mkBuffers (Some buf) dp' en'))) /\
  (forall buf dx en dx' en',
     is_Some (du_dp (k (mkBuffers dx (Some buf) en))) /\
     du_dp (k (mkBuffers dx (Some buf) en)) =
     du_dp (k (mkBuffers dx' (Some buf) en'))) /\
  (forall buf dx dp dx' dp',
     is_Some (u (k (mkBuffers dx dp (Some buf)))) /\
     u (k (mkBuffers dx dp (Some buf))) =
     u (k (mkBuffers dx' dp' (Some buf)))).

(** ** Concrete inputs over the real numbers *)

Module Examples.

(** Two atoms one unit apart in a cubic box of side 10, joined by one
    flat-bottom bond with [k = 1], [rmin = 0], [rmax = 2], at [beta = 1]. *)
Definition bond_coords : list R := [0; 0; 0; 1; 0; 0]%R.
Definition bond_box : list R := [10; 0; 0; 0; 10; 0; 0; 0; 10]%R.
Definition bond_params : list R := [1; 0; 2]%R.
Definition bond_idxs : list nat := [0; 1]%nat.
Definition bond_beta : R := 1%R.

(** The launch of the bond kernel on those inputs, with one thread. *)
Definition bond_launch : Buffers -> Buffers :=
  k_log_flat_bottom_bond 1 1 bond_coords bond_box bond_params bond_idxs
    bond_beta.

End Examples.

(** ** Statements about the kernel signatures and the device buffer *)

(** The two bonded kernels. *)
Definition potential_kernels : list kernel_sig :=
  [k_periodic_torsion_sig; k_log_flat_bottom_bond_sig].

(** The energy array's element type is at least twice as wide as the force
    array's. *)
Definition wide_energy (sig : kernel_sig) : Prop :=
  2 * bits (du_dx_t sig) <= bits (u_t sig).

(** A construction with [length] elements of type [T] on the recording
    device asks the allocator for exactly [length * sizeof(T)] bytes and
    records that number as the buffer's [size]. *)
Definition allocates_exactly (T : DeviceBufferImpl.elem_type) (length : Z)
    : Prop :=
  forall dev,
  exists p,
    DeviceBufferImpl.DeviceBuffer_new _ DeviceBufferImpl.recording_malloc
      T length dev =
    (DeviceBufferImpl.Ok
       (DeviceBufferImpl.mkDeviceBuffer (length * DeviceBufferImpl.sizeof T) p),
     dev ++ [length * DeviceBufferImpl.sizeof T]).

(** ** The minimum-image convention

    In a periodic box of side [L > 0] along some dimension, [img] is a
    minimum image of the separation [delta] when it differs from [delta] by
    a whole number of box lengths and is at most half a box length long. *)
Definition is_minimum_image (L delta img : R) : Prop :=
  (exists n : Z, img = delta - IZR n * L)%R /\ (Rabs img <= L / 2)%R.

Module PeriodicExample.

(** Two atoms on the x axis, at 0.5 and 9.5, in a box of side 10: the
    wrapped separation is -1, the coordinate difference is 9. *)
Definition coords : list R := [1 / 2; 0; 0; 19 / 2; 0; 0]%R.
Definition box : list R := [10; 0; 0; 0; 10; 0; 0; 0; 10]%R.

End PeriodicExample.

Module RunnerExample.

(** Four atoms, two torsion terms over them taken in opposite directions,
    each potential with its own [kt], [phase], [period]. *)
Definition coords : list R :=
  [0; 0; 0;  1; 0; 0;  1; 1; 0;  1; 1; 1]%R.
Definition box : list R := [10; 0; 0; 0; 10; 0; 0; 0; 10]%R.

Definition torsion_a : BoundPotential R :=
  mkBoundPotential (PeriodicTorsion 1 [0; 1; 2; 3]%nat) 3 [1; 0; 2]%R.
Definition torsion_b : BoundPotential R :=
  mkBoundPotential (PeriodicTorsion 1 [3; 2; 1; 0]%nat) 3 [2; 1; 3]%R.

(** Output arrays for four atoms, three parameters and per-atom energies,
    holding leftovers the runner has to clear. *)
Definition outputs : Buffers :=
  mkBuffers (Some (replicate 12 7)) (Some (replicate 3 7))
            (Some (replicate 4 7)).

End RunnerExample.

(** ** Further statements *)

(** The sum of the values a batch sends to slot [s], each read as the
    [long long] it encodes. *)
Definition signed_sum_at (s : nat) (adds : list (nat * Z)) : Z :=
  fold_right
    (fun a acc => if Nat.eqb (fst a) s then to_ll (snd a) + acc else acc)
    0 adds.

Section GradientValues.
Context {RealType : Type} `{RealOps RealType} `{HelperOps RealType}.

(** The three parameter gradients of a torsion term, lines 120-122. *)
Definition torsion_du_dkt (tl : torsion_locals) : RealType :=
  radd (of_Z 1)
       (rcos (rsub (rmul (tl_period tl) (tl_angle tl)) (tl_phase tl))).

Definition torsion_du_dphase (tl : torsion_locals) : RealType :=
  rmul (tl_kt tl)
       (rsin (rsub (rmul (tl_period tl) (tl_angle tl)) (tl_phase tl))).

Definition torsion_du_dperiod (tl : torsion_locals) : RealType :=
  rmul (rmul (rneg (tl_kt tl))
             (rsin (rsub (rmul (tl_period tl) (tl_angle tl)) (tl_phase tl))))
       (tl_angle tl).

(** The three parameter gradients of a bond, lines 73-75, each times the
    prefactor as on lines 78-80. *)
Definition lfbb_du_dk (bl : lfbb_locals) : RealType :=
  rmul (radd (rmul (bl_r_gt_rmax bl)
                   (rdiv (rpow (rsub (bl_r bl) (bl_rmax bl)) 4) (of_Z 4)))
             (rmul (bl_r_lt_rmin bl)
                   (rdiv (rpow (rsub (bl_r bl) (bl_rmin bl)) 4) (of_Z 4))))
       (bl_prefactor bl).

Definition lfbb_du_drmin (bl : lfbb_locals) : RealType :=
  rmul (rmul (bl_r_lt_rmin bl)
             (rmul (rneg (bl_k bl)) (rpow (rsub (bl_r bl) (bl_rmin bl)) 3)))
       (bl_prefactor bl).

Definition lfbb_du_drmax (bl : lfbb_locals) : RealType :=
  rmul (rmul (bl_r_gt_rmax bl)
             (rmul (rneg (bl_k bl)) (rpow (rsub (bl_r bl) (bl_rmax bl)) 3)))
       (bl_prefactor bl).

End GradientValues.

(** The sum of all entries of an array. *)
Definition total (buf : list Z) : Z := fold_right Z.add 0 buf.

(** The sum of all values of a batch. *)
Definition batch_total (adds : list (nat * Z)) : Z :=
  fold_right (fun a acc => snd a + acc) 0 adds.
(** * Properties *)

(** ** Machine integers *)

Lemma two64_eq : two64 = 18446744073709551616.
Proof. reflexivity. Qed.

Lemma two128_eq : two128 = 340282366920938463463374607431768211456.
Proof. reflexivity. Qed.

Lemma to_ull_range z : is_ull (to_ull z).
Proof. unfold is_ull, to_ull. apply Z.mod_pos_bound. reflexivity. Qed.

Lemma to_ull_id z : is_ull z -> to_ull z = z.
Proof. unfold is_ull, to_ull. intros Hz. apply Z.mod_small. exact Hz. Qed.

Lemma to_ull_idem z : to_ull (to_ull z) = to_ull z.
Proof. apply to_ull_id, to_ull_range. Qed.

Lemma to_ull_add_l a b : to_ull (to_ull a + b) = to_ull (a + b).
Proof. unfold to_ull. apply Zplus_mod_idemp_l. Qed.

Lemma to_ll_id z : is_ll z -> to_ll z = z.
Proof.
  unfold is_ll, to_ll, LLONG_MIN, LLONG_MAX. rewrite two64_eq. intros Hz.
  rewrite Z.mod_small; lia.
Qed.

Lemma to_ll_to_ull z : to_ll (to_ull z) = to_ll z.
Proof.
  unfold to_ll, to_ull.
  rewrite Zplus_mod_idemp_l. reflexivity.
Qed.

Lemma to_int128_id z : is_int128 z -> to_int128 z = z.
Proof.
  unfold is_int128, to_int128, INT128_MIN, INT128_MAX. rewrite two128_eq.
  intros Hz. rewrite Z.mod_small; lia.
Qed.

Lemma to_int128_range z : is_int128 (to_int128 z).
Proof.
  unfold is_int128, to_int128, INT128_MIN, INT128_MAX.
  pose proof (Z.mod_pos_bound (z + 2 ^ 127) two128 eq_refl) as Hb.
  rewrite two128_eq in *. lia.
Qed.

(** The casts and the array primitives on small inputs. *)

Example to_ll_all_ones : to_ll (two64 - 1) = -1.
Proof. reflexivity. Qed.

Example to_ull_minus_one : to_ull (-1) = two64 - 1.
Proof. reflexivity. Qed.

Example atomicAdd_wraps : atomicAdd [two64 - 1; 5] 0 1 = [0; 5].
Proof. reflexivity. Qed.

Example atomicAdd_out_of_range : atomicAdd [1; 2] 2 7 = [1; 2].
Proof. reflexivity. Qed.

Example apply_adds_example :
  apply_adds [(0%nat, 1); (1%nat, 3); (0%nat, 2)] [10; 20] = [13; 23].
Proof. reflexivity. Qed.

Example store128_replaces : store128 [4; 5] 1 9 = [4; 9].
Proof. reflexivity. Qed.

Example memset_zero_front : memset_zero 2 [7; 7; 7] = [0; 0; 7].
Proof. reflexivity. Qed.

Example round_up_even_odd : round_up_even 9 = 10%nat.
Proof. reflexivity. Qed.

(** ** fixed_point.hpp: overflow detection *)

Lemma fixed_point_overflow_true v :
  fixed_point_overflow v = true <-> LLONG_MAX <= v \/ v <= LLONG_MIN.
Proof.
  unfold fixed_point_overflow.
  rewrite !to_int128_id by (unfold is_int128; cbv; split; discriminate).
  rewrite orb_true_iff, Z.geb_le, Z.leb_le. reflexivity.
Qed.

(** C1, the claim as stated fails: [LLONG_MAX] is a value of [long long],
    it has not left the range, and [fixed_point_overflow] reports it. *)
Lemma fixed_point_overflow_flags_representable :
  ~ (forall v, is_int128 v ->
       (fixed_point_overflow v = true <-> outside_long_long v)).
Proof.
  intros Hclaim.
  assert (Hin : is_int128 LLONG_MAX) by (cbv; split; discriminate).
  destruct (Hclaim LLONG_MAX Hin) as [Hfwd _].
  assert (Hov : fixed_point_overflow LLONG_MAX = true) by reflexivity.
  specialize (Hfwd Hov). unfold outside_long_long, LLONG_MIN, LLONG_MAX in Hfwd.
  lia.
Qed.

(** C1, amended: [fixed_point_overflow] is true exactly on the values at or
    beyond either end of the [long long] range, the two end values
    [LLONG_MAX] and [LLONG_MIN] included; it is false exactly strictly
    inside, so the value just below [LLONG_MAX] and the value just above
    [LLONG_MIN] do not report overflow, and every value that has left the
    range does. *)
Theorem fixed_point_overflow_boundary :
  (forall v, fixed_point_overflow v = true <->
             LLONG_MAX <= v \/ v <= LLONG_MIN) /\
  (forall v, fixed_point_overflow v = false <->
             LLONG_MIN < v < LLONG_MAX) /\
  fixed_point_overflow LLONG_MAX = true /\
  fixed_point_overflow (LLONG_MAX - 1) = false /\
  fixed_point_overflow LLONG_MIN = true /\
  fixed_point_overflow (LLONG_MIN + 1) = false /\
  (forall v, outside_long_long v <->
             fixed_point_overflow v = true /\ v <> LLONG_MAX /\ v <> LLONG_MIN).
Proof.
  split; [exact fixed_point_overflow_true|].
  split.
  { intros v. rewrite <- not_true_iff_false, fixed_point_overflow_true. lia. }
  repeat split; try reflexivity.
  - apply fixed_point_overflow_true. unfold outside_long_long in *. lia.
  - unfold outside_long_long in *. unfold LLONG_MAX, LLONG_MIN in *. lia.
  - unfold outside_long_long in *. unfold LLONG_MAX, LLONG_MIN in *. lia.
  - intros (Hov & Hmax & Hmin). apply fixed_point_overflow_true in Hov.
    unfold outside_long_long. lia.
Qed.

(** ** Atomic additions on an array *)

Lemma atomicAdd_length buf i v : length (atomicAdd buf i v) = length buf.
Proof. unfold atomicAdd. apply length_alter. Qed.

Lemma atomicAdd_lookup buf i v s :
  atomicAdd buf i v !! s =
  if decide (s = i) then (fun old => to_ull (old + v)) <$> buf !! s
  else buf !! s.
Proof.
  unfold atomicAdd. destruct (decide (s = i)) as [->|Hne].
  - apply list_lookup_alter_eq.
  - apply list_lookup_alter_ne. congruence.
Qed.

(** Two atomic additions land in either order with the same result. *)
Lemma atomicAdd_comm buf i a j b :
  atomicAdd (atomicAdd buf i a) j b = atomicAdd (atomicAdd buf j b) i a.
Proof.
  apply list_eq. intros s. rewrite !atomicAdd_lookup.
  destruct (decide (s = j)) as [Hj|Hj], (decide (s = i)) as [Hi|Hi];
    rewrite ?atomicAdd_lookup; repeat case_decide; try congruence.
  destruct (buf !! s) as [x|]; simpl; [|reflexivity].
  f_equal. rewrite !to_ull_add_l. f_equal. lia.
Qed.

Lemma atomicAdd_fits buf i v :
  Forall (fits ULongLong) buf -> Forall (fits ULongLong) (atomicAdd buf i v).
Proof.
  rewrite !Forall_lookup. intros Hbuf s x. rewrite atomicAdd_lookup.
  case_decide; [|apply Hbuf].
  destruct (buf !! s); simpl; [|discriminate].
  intros [= <-]. unfold fits. simpl. apply to_ull_idem.
Qed.

Lemma apply_adds_app a1 a2 buf :
  apply_adds (a1 ++ a2) buf = apply_adds a2 (apply_adds a1 buf).
Proof. unfold apply_adds. apply fold_left_app. Qed.

Lemma apply_adds_length adds buf : length (apply_adds adds buf) = length buf.
Proof.
  revert buf. induction adds as [|a adds IH]; intros buf; [reflexivity|].
  cbn. change (fold_left _ adds ?b) with (apply_adds adds b).
  rewrite IH. apply atomicAdd_length.
Qed.

(** The order of a batch does not matter. *)
Lemma apply_adds_perm a1 a2 buf :
  Permutation a1 a2 -> apply_adds a1 buf = apply_adds a2 buf.
Proof.
  intros Hp. revert buf.
  induction Hp as [|x l l' _ IH|x y l|l l' l'' _ IH1 _ IH2]; intros buf.
  - reflexivity.
  - cbn. apply IH.
  - cbn. rewrite atomicAdd_comm. reflexivity.
  - rewrite IH1. apply IH2.
Qed.

Lemma sum_at_app s a1 a2 : sum_at s (a1 ++ a2) = sum_at s a1 + sum_at s a2.
Proof.
  induction a1 as [|a a1 IH]; cbn; [reflexivity|].
  fold (sum_at s (a1 ++ a2)). fold (sum_at s a1).
  destruct (Nat.eqb (fst a) s); lia.
Qed.

(** A batch leaves in every slot the prior value plus the sum of what the
    batch sends there, modulo 2^64. *)
Lemma apply_adds_lookup adds buf s :
  Forall (fits ULongLong) buf ->
  apply_adds adds buf !! s =
  (fun old => to_ull (old + sum_at s adds)) <$> buf !! s.
Proof.
  revert buf. induction adds as [|[i v] adds IH]; intros buf Hbuf.
  - cbn. destruct (buf !! s) as [x|] eqn:Hx; simpl; [|reflexivity].
    rewrite Forall_lookup in Hbuf. specialize (Hbuf _ _ Hx).
    unfold fits in Hbuf. simpl in Hbuf. rewrite Z.add_0_r. congruence.
  - cbn. change (fold_left _ adds ?b) with (apply_adds adds b).
    fold (sum_at s adds).
    rewrite IH by (apply atomicAdd_fits; exact Hbuf).
    rewrite atomicAdd_lookup.
    destruct (Nat.eqb_spec i s) as [->|Hne].
    + rewrite decide_True by reflexivity.
      destruct (buf !! s); simpl; [|reflexivity].
      f_equal. rewrite to_ull_add_l. f_equal. lia.
    + rewrite decide_False by congruence. reflexivity.
Qed.

Lemma apply_adds_accumulates adds :
  accumulates_into ULongLong (apply_adds adds).
Proof.
  exists (fun s => sum_at s adds). intros buf Hbuf s.
  apply apply_adds_lookup. exact Hbuf.
Qed.

(** ** The shape of a launch *)

Lemma lift3_compose gx gp gu hx hp hu b :
  lift3 hx hp hu (lift3 gx gp gu b) =
  lift3 (fun l => hx (gx l)) (fun l => hp (gp l)) (fun l => hu (gu l)) b.
Proof. destruct b as [[x|] [p|] [e|]]; reflexivity. Qed.

Lemma lift3_ext gx gp gu hx hp hu b :
  (forall l, gx l = hx l) -> (forall l, gp l = hp l) ->
  (forall l, gu l = hu l) ->
  lift3 gx gp gu b = lift3 hx hp hu b.
Proof.
  intros Hx Hp Hu. unfold lift3.
  destruct (du_dx b), (du_dp b), (u b); simpl; rewrite ?Hx, ?Hp, ?Hu;
    reflexivity.
Qed.

(** Threads that each update the three arrays independently make a launch
    that does. *)
Lemma run_threads_lift3 body gx gp gu sched :
  (forall t b, body t b = lift3 (gx t) (gp t) (gu t) b) ->
  forall b,
    run_threads body sched b =
    lift3 (along gx sched) (along gp sched) (along gu sched) b.
Proof.
  intros Hbody. unfold run_threads, along.
  induction sched as [|t sched IH]; intros b; cbn.
  - destruct b as [[x|] [p|] [e|]]; reflexivity.
  - rewrite IH, Hbody, lift3_compose. reflexivity.
Qed.

Lemma along_batch bound per_thread sched buf :
  along (fun t acc =>
           if (bound <=? t)%nat then acc else apply_adds (per_thread t) acc)
        sched buf =
  apply_adds (launch_batch bound per_thread sched) buf.
Proof.
  unfold along, launch_batch. revert buf.
  induction sched as [|t sched IH]; intros buf; cbn; [reflexivity|].
  rewrite apply_adds_app, IH.
  destruct (bound <=? t)%nat; reflexivity.
Qed.

Section KernelShape.
Context {RealType : Type} `{RealOps RealType} `{HelperOps RealType}.

Lemma torsion_du_dx_batch D (tl : torsion_locals) buf :
  torsion_du_dx D tl buf = apply_adds (torsion_adds_dx D tl) buf.
Proof. reflexivity. Qed.

Lemma torsion_du_dp_batch (tl : torsion_locals) buf :
  torsion_du_dp tl buf = apply_adds (torsion_adds_dp tl) buf.
Proof. reflexivity. Qed.

Lemma torsion_u_batch (tl : torsion_locals) buf :
  torsion_u tl buf = apply_adds (torsion_adds_u tl) buf.
Proof. reflexivity. Qed.

Lemma lfbb_du_dx_batch (bl : lfbb_locals) buf :
  lfbb_du_dx bl buf = apply_adds (lfbb_adds_dx bl) buf.
Proof. reflexivity. Qed.

Lemma lfbb_du_dp_batch (bl : lfbb_locals) buf :
  lfbb_du_dp bl buf = apply_adds (lfbb_adds_dp bl) buf.
Proof. reflexivity. Qed.

(** One torsion thread, array by array. *)
Lemma k_periodic_torsion_thread_lift3 D T coords params torsion_idxs t b :
  k_periodic_torsion_thread D T coords params torsion_idxs t b =
  let tl := k_periodic_torsion_locals D coords params torsion_idxs in
  lift3
    (fun acc => if (T <=? t)%nat then acc
                else apply_adds (torsion_adds_dx D (tl t)) acc)
    (fun acc => if (T <=? t)%nat then acc
                else apply_adds (torsion_adds_dp (tl t)) acc)
    (fun acc => if (T <=? t)%nat then acc
                else apply_adds (torsion_adds_u (tl t)) acc)
    b.
Proof.
  unfold k_periodic_torsion_thread. cbv zeta.
  destruct (T <=? t)%nat.
  - destruct b as [[x|] [p|] [e|]]; reflexivity.
  - destruct b as [[x|] [p|] [e|]]; reflexivity.
Qed.

(** The whole torsion launch is three batches of atomic additions, one per
    output array, each fixed by the inputs and the schedule. *)
Lemma k_periodic_torsion_batches D T coords params torsion_idxs sched b :
  run_threads (k_periodic_torsion_thread D T coords params torsion_idxs)
              sched b =
  let tl := k_periodic_torsion_locals D coords params torsion_idxs in
  lift3
    (apply_adds (launch_batch T (fun t => torsion_adds_dx D (tl t)) sched))
    (apply_adds (launch_batch T (fun t => torsion_adds_dp (tl t)) sched))
    (apply_adds (launch_batch T (fun t => torsion_adds_u (tl t)) sched))
    b.
Proof.
  cbv zeta.
  rewrite (run_threads_lift3 _ _ _ _ sched
             (k_periodic_torsion_thread_lift3 D T coords params torsion_idxs)).
  apply lift3_ext; intros l; apply along_batch.
Qed.

(** One bond thread, array by array: additions into the two gradient
    arrays, an assignment into the energy array. *)
Lemma k_log_flat_bottom_bond_thread_lift3
    B coords box params bond_idxs beta t b :
  k_log_flat_bottom_bond_thread B coords box params bond_idxs beta t b =
  let bl := k_log_flat_bottom_bond_locals coords box params bond_idxs beta in
  lift3
    (fun acc => if (B <=? t)%nat then acc
                else apply_adds (lfbb_adds_dx (bl t)) acc)
    (fun acc => if (B <=? t)%nat then acc
                else apply_adds (lfbb_adds_dp (bl t)) acc)
    (fun acc => if (B <=? t)%nat then acc
                else store128 acc t
                       (FLOAT_TO_FIXED_ENERGY (lfbb_u_real beta (bl t))))
    b.
Proof.
  unfold k_log_flat_bottom_bond_thread. cbv zeta.
  destruct (B <=? t)%nat.
  - destruct b as [[x|] [p|] [e|]]; reflexivity.
  - destruct b as [[x|] [p|] [e|]]; reflexivity.
Qed.

Lemma k_log_flat_bottom_bond_batches
    B coords box params bond_idxs beta sched b :
  run_threads
    (k_log_flat_bottom_bond_thread B coords box params bond_idxs beta)
    sched b =
  let bl := k_log_flat_bottom_bond_locals coords box params bond_idxs beta in
  lift3
    (apply_adds (launch_batch B (fun t => lfbb_adds_dx (bl t)) sched))
    (apply_adds (launch_batch B (fun t => lfbb_adds_dp (bl t)) sched))
    (along (fun t acc =>
              if (B <=? t)%nat then acc
              else store128 acc t
                     (FLOAT_TO_FIXED_ENERGY (lfbb_u_real beta (bl t))))
           sched)
    b.
Proof.
  cbv zeta.
  rewrite (run_threads_lift3 _ _ _ _ sched
             (k_log_flat_bottom_bond_thread_lift3
                B coords box params bond_idxs beta)).
  apply lift3_ext; intros l; [apply along_batch | apply along_batch |].
  reflexivity.
Qed.

End KernelShape.

(** ** What the kernels do to their output arrays *)

Lemma lift3_honours_null_pointers k gx gp gu :
  (forall b, k b = lift3 gx gp gu b) -> honours_null_pointers k.
Proof.
  intros Hk. unfold honours_null_pointers.
  repeat split; intros; rewrite ?Hk; cbn; try reflexivity; eexists;
    reflexivity.
Qed.

Lemma on_du_dx_lift3 k gx gp gu dp en buf :
  (forall b, k b = lift3 gx gp gu b) -> on_du_dx k dp en buf = gx buf.
Proof. intros Hk. unfold on_du_dx. rewrite Hk. reflexivity. Qed.

Lemma on_du_dp_lift3 k gx gp gu dx en buf :
  (forall b, k b = lift3 gx gp gu b) -> on_du_dp k dx en buf = gp buf.
Proof. intros Hk. unfold on_du_dp. rewrite Hk. reflexivity. Qed.

Lemma on_u_lift3 k gx gp gu dx dp buf :
  (forall b, k b = lift3 gx gp gu b) -> on_u k dx dp buf = gu buf.
Proof. intros Hk. unfold on_u. rewrite Hk. reflexivity. Qed.

Lemma accumulates_into_ext w f g :
  (forall buf, f buf = g buf) -> accumulates_into w g -> accumulates_into w f.
Proof.
  intros Hfg [delta Hd]. exists delta. intros buf Hbuf s.
  rewrite Hfg. apply Hd. exact Hbuf.
Qed.

Lemma store128_lookup buf i v s :
  store128 buf i v !! s =
  if decide (s = i) then (fun _ => to_int128 v) <$> buf !! s else buf !! s.
Proof.
  unfold store128. rewrite list_insert_alter.
  destruct (decide (s = i)) as [->|Hne].
  - apply list_lookup_alter_eq.
  - apply list_lookup_alter_ne. congruence.
Qed.

(** Each thread of a launch assigns to the slot of its own index, so after
    the launch every slot whose index passed the bounds check holds the
    value of its thread, whatever it held before. *)
Lemma along_stores_lookup bound (f : nat -> Z) a n buf s :
  along (fun t acc => if (bound <=? t)%nat then acc else store128 acc t (f t))
        (seq a n) buf !! s =
  if decide (a <= s < a + n /\ s < bound)%nat
  then (fun _ => to_int128 (f s)) <$> buf !! s
  else buf !! s.
Proof.
  unfold along. revert a buf.
  induction n as [|n IH]; intros a buf; cbn.
  - rewrite decide_False by lia. reflexivity.
  - rewrite IH. destruct (Nat.leb_spec bound a) as [Hle|Hlt].
    + repeat case_decide; try reflexivity; lia.
    + rewrite store128_lookup.
      repeat case_decide; subst; try reflexivity; lia.
Qed.

Lemma to_int128_succ_ne z : to_int128 (1 + z) <> to_int128 z.
Proof.
  unfold to_int128. rewrite two128_eq.
  pose proof (Z.div_mod (z + 2 ^ 127) 340282366920938463463374607431768211456).
  pose proof (Z.div_mod (1 + z + 2 ^ 127)
                340282366920938463463374607431768211456).
  pose proof (Z.mod_pos_bound (z + 2 ^ 127)
                340282366920938463463374607431768211456).
  pose proof (Z.mod_pos_bound (1 + z + 2 ^ 127)
                340282366920938463463374607431768211456).
  lia.
Qed.

Section KernelContracts.
Context {RealType : Type} `{RealOps RealType} `{HelperOps RealType}.

Lemma k_periodic_torsion_lift3 D T nthreads coords params torsion_idxs :
  let tl := k_periodic_torsion_locals D coords params torsion_idxs in
  forall b,
    k_periodic_torsion D T nthreads coords params torsion_idxs b =
    lift3
      (apply_adds
         (launch_batch T (fun t => torsion_adds_dx D (tl t)) (grid nthreads)))
      (apply_adds
         (launch_batch T (fun t => torsion_adds_dp (tl t)) (grid nthreads)))
      (apply_adds
         (launch_batch T (fun t => torsion_adds_u (tl t)) (grid nthreads)))
      b.
Proof. intros tl b. apply k_periodic_torsion_batches. Qed.

Lemma k_log_flat_bottom_bond_lift3
    B nthreads coords box params bond_idxs beta :
  let bl := k_log_flat_bottom_bond_locals coords box params bond_idxs beta in
  forall b,
    k_log_flat_bottom_bond B nthreads coords box params bond_idxs beta b =
    lift3
      (apply_adds
         (launch_batch B (fun t => lfbb_adds_dx (bl t)) (grid nthreads)))
      (apply_adds
         (launch_batch B (fun t => lfbb_adds_dp (bl t)) (grid nthreads)))
      (along (fun t acc =>
                if (B <=? t)%nat then acc
                else store128 acc t
                       (FLOAT_TO_FIXED_ENERGY (lfbb_u_real beta (bl t))))
             (grid nthreads))
      b.
Proof. intros bl b. apply k_log_flat_bottom_bond_batches. Qed.

Lemma torsion_arrays_accumulate D T nt coords params torsion_idxs o1 o2 :
  let kt := k_periodic_torsion D T nt coords params torsion_idxs in
  accumulates_into ULongLong (on_du_dx kt o1 o2) /\
  accumulates_into ULongLong (on_du_dp kt o1 o2) /\
  accumulates_into ULongLong (on_u kt o1 o2).
Proof.
  intros kt.
  pose proof (k_periodic_torsion_lift3 D T nt coords params torsion_idxs)
    as Ht.
  cbv zeta in Ht.
  repeat split.
  - eapply accumulates_into_ext;
      [intros buf; apply (on_du_dx_lift3 _ _ _ _ _ _ _ Ht)
      |apply apply_adds_accumulates].
  - eapply accumulates_into_ext;
      [intros buf; apply (on_du_dp_lift3 _ _ _ _ _ _ _ Ht)
      |apply apply_adds_accumulates].
  - eapply accumulates_into_ext;
      [intros buf; apply (on_u_lift3 _ _ _ _ _ _ _ Ht)
      |apply apply_adds_accumulates].
Qed.

Lemma bond_gradients_accumulate
    B nb coords box params bond_idxs beta o1 o2 :
  let kb := k_log_flat_bottom_bond B nb coords box params bond_idxs beta in
  accumulates_into ULongLong (on_du_dx kb o1 o2) /\
  accumulates_into ULongLong (on_du_dp kb o1 o2).
Proof.
  intros kb.
  pose proof (k_log_flat_bottom_bond_lift3 B nb coords box params bond_idxs
                beta) as Hb.
  cbv zeta in Hb.
  split.
  - eapply accumulates_into_ext;
      [intros buf; apply (on_du_dx_lift3 _ _ _ _ _ _ _ Hb)
      |apply apply_adds_accumulates].
  - eapply accumulates_into_ext;
      [intros buf; apply (on_du_dp_lift3 _ _ _ _ _ _ _ Hb)
      |apply apply_adds_accumulates].
Qed.

(** After a bond launch, the energy slot of every bond whose thread ran
    holds that bond's encoded energy; the other slots are as before. *)
Lemma bond_energy_lookup
    B nb coords box params bond_idxs beta o1 o2 buf s :
  let kb := k_log_flat_bottom_bond B nb coords box params bond_idxs beta in
  let bl := k_log_flat_bottom_bond_locals coords box params bond_idxs beta in
  on_u kb o1 o2 buf !! s =
  if decide (s < nb /\ s < B)%nat
  then (fun _ => to_int128 (FLOAT_TO_FIXED_ENERGY (lfbb_u_real beta (bl s))))
         <$> buf !! s
  else buf !! s.
Proof.
  intros kb bl.
  pose proof (k_log_flat_bottom_bond_lift3 B nb coords box params bond_idxs
                beta) as Hb.
  cbv zeta in Hb.
  unfold kb. rewrite (on_u_lift3 _ _ _ _ _ _ _ Hb).
  unfold grid. rewrite along_stores_lookup.
  repeat case_decide; try reflexivity; lia.
Qed.

(** C2, amended: the torsion kernel only adds into its three output arrays,
    and the log-flat-bottom bond kernel only adds into its force and
    parameter-gradient arrays: each array ends with its prior contents plus
    contributions fixed by the inputs (modulo 2^64).  The bond kernel's
    energy array is assigned, not added to: after the launch every slot
    whose thread ran holds that bond's encoded energy and nothing of what
    it held before; the other slots are untouched. *)
Theorem kernels_add_except_bond_energy :
  forall D T nt coords params torsion_idxs
         B nb coords' box params' bond_idxs beta o1 o2,
  let kt := k_periodic_torsion D T nt coords params torsion_idxs in
  let kb := k_log_flat_bottom_bond B nb coords' box params' bond_idxs beta in
  let bl := k_log_flat_bottom_bond_locals coords' box params' bond_idxs beta in
  accumulates_into ULongLong (on_du_dx kt o1 o2) /\
  accumulates_into ULongLong (on_du_dp kt o1 o2) /\
  accumulates_into ULongLong (on_u kt o1 o2) /\
  accumulates_into ULongLong (on_du_dx kb o1 o2) /\
  accumulates_into ULongLong (on_du_dp kb o1 o2) /\
  (forall buf s,
     on_u kb o1 o2 buf !! s =
     if decide (s < nb /\ s < B)%nat
     then (fun _ => to_int128 (FLOAT_TO_FIXED_ENERGY (lfbb_u_real beta (bl s))))
            <$> buf !! s
     else buf !! s).
Proof.
  intros D T nt coords params torsion_idxs B nb coords' box params' bond_idxs
         beta o1 o2 kt kb bl.
  destruct (torsion_arrays_accumulate D T nt coords params torsion_idxs o1 o2)
    as (Hx & Hp & Hu).
  destruct (bond_gradients_accumulate B nb coords' box params' bond_idxs beta
              o1 o2) as (Hbx & Hbp).
  repeat split; try assumption.
  intros buf s. apply bond_energy_lookup.
Qed.

(** C6: in both kernels a null output pointer stays null, so nothing is
    accumulated for that quantity, and what a non-null array receives is
    the same whichever of the other two pointers are null. *)
Theorem kernels_honour_null_pointers :
  forall D T nt coords params torsion_idxs
         B nb coords' box params' bond_idxs beta,
  honours_null_pointers
    (k_periodic_torsion D T nt coords params torsion_idxs) /\
  honours_null_pointers
    (k_log_flat_bottom_bond B nb coords' box params' bond_idxs beta).
Proof.
  intros. split.
  - eapply lift3_honours_null_pointers.
    apply (k_periodic_torsion_lift3 D T nt coords params torsion_idxs).
  - eapply lift3_honours_null_pointers.
    apply (k_log_flat_bottom_bond_lift3 B nb coords' box params' bond_idxs
             beta).
Qed.

(** C10: a torsion thread that passes the bounds check adds the encoded
    energy [kt * (1 + cos(period * angle - phase))] of its term to the slot
    of the term's first atom and changes no other slot of the energy array,
    those of the atoms [j], [k], [l] included when they differ from [i];
    the whole launch is the batch of these additions, one per term. *)
Theorem torsion_energy_goes_to_first_atom :
  forall D T nt coords params torsion_idxs dx dp,
  let tl := k_periodic_torsion_locals D coords params torsion_idxs in
  let thread := k_periodic_torsion_thread D T coords params torsion_idxs in
  let e := fun t => FLOAT_TO_FIXED_BONDED (torsion_energy (tl t)) in
  (forall t,
     tl_i_idx (tl t) = ri torsion_idxs (t * 4 + 0) /\
     tl_j_idx (tl t) = ri torsion_idxs (t * 4 + 1) /\
     tl_k_idx (tl t) = ri torsion_idxs (t * 4 + 2) /\
     tl_l_idx (tl t) = ri torsion_idxs (t * 4 + 3) /\
     torsion_energy (tl t) =
     rmul (rd params (t * 3 + 0))
          (radd (of_Z 1)
                (rcos (rsub (rmul (rd params (t * 3 + 2)) (tl_angle (tl t)))
                            (rd params (t * 3 + 1)))))) /\
  (forall t buf s,
     on_u (thread t) dx dp buf !! s =
     if decide (t < T /\ s = tl_i_idx (tl t))%nat
     then (fun old => to_ull (old + e t)) <$> buf !! s
     else buf !! s) /\
  (forall buf,
     on_u (k_periodic_torsion D T nt coords params torsion_idxs) dx dp buf =
     apply_adds
       (launch_batch T (fun t => [(tl_i_idx (tl t), e t)]) (grid nt)) buf).
Proof.
  intros D T nt coords params torsion_idxs dx dp tl thread e.
  split; [|split].
  - intros t. repeat split; reflexivity.
  - intros t buf s. unfold thread.
    rewrite (on_u_lift3 _ _ _ _ _ _ _
               (k_periodic_torsion_thread_lift3 D T coords params
                  torsion_idxs t)).
    destruct (Nat.leb_spec T t) as [Hle|Hlt].
    + rewrite decide_False by lia. reflexivity.
    + unfold torsion_adds_u, apply_adds. cbn [fold_left fst snd].
      rewrite atomicAdd_lookup. fold tl.
      repeat case_decide; try reflexivity; try lia; tauto.
  - intros buf.
    apply (on_u_lift3 _ _ _ _ _ _ _
             (k_periodic_torsion_lift3 D T nt coords params torsion_idxs)).
Qed.

End KernelContracts.

(** C2, the claim as stated fails on the bond kernel's energy array: run on
    the example bond, it leaves the same encoded energy in slot 0 whether
    the slot held 0 or 1 before, so what it leaves is not the prior
    contents plus a contribution. *)
Lemma bond_energy_is_overwritten :
  ~ accumulates_into Int128 (on_u Examples.bond_launch None None).
Proof.
  intros [delta Hd].
  assert (H0 : Forall (fits Int128) [0]) by (repeat constructor).
  assert (H1 : Forall (fits Int128) [1]) by (repeat constructor).
  pose proof (Hd [0] H0 0%nat) as E0.
  pose proof (Hd [1] H1 0%nat) as E1.
  unfold Examples.bond_launch in E0, E1.
  rewrite bond_energy_lookup in E0, E1.
  rewrite decide_True in E0, E1 by lia.
  set (c := to_int128 (FLOAT_TO_FIXED_ENERGY _)) in E0, E1.
  cbn in E0, E1.
  apply (to_int128_succ_ne (delta 0%nat)).
  rewrite <- (Z.add_0_l (delta 0%nat)) at 2. congruence.
Qed.

(** ** device_buffer.cu *)

Section DeviceBufferFacts.
Import DeviceBufferImpl.

Lemma sizeof_pos T : 1 <= sizeof T <= 16.
Proof. destruct T; cbn; lia. Qed.

(** C9, the claim as stated fails: [length * sizeof(T)] is computed in
    [std::size_t] and wraps.  A buffer of 2^61 doubles gets [size] 0 and
    asks the allocator for 0 bytes. *)
Lemma device_buffer_size_wraps :
  ~ (forall T length, 1 <= length < two64 -> allocates_exactly T length).
Proof.
  intros Hclaim.
  assert (Hlen : 1 <= 2 ^ 61 < two64) by (rewrite two64_eq; lia).
  destruct (Hclaim EDouble (2 ^ 61) Hlen []) as [p Hp].
  vm_compute in Hp. discriminate Hp.
Qed.

(** C9, amended: a construction with [length < 1] throws and leaves the
    device as it was, whatever the allocator is (it is not called).  With
    [length >= 1] and [length * sizeof(T)] below 2^64, the constructor asks
    the allocator for exactly [length * sizeof(T)] bytes, and when the
    allocator returns, the buffer's [size] is [length * sizeof(T)] and its
    [data] is the pointer returned; an allocator failure is passed on. *)
Theorem device_buffer_construction :
  forall (Device : Type) (cudaSafeMalloc : Device -> Z -> result Z * Device)
         (T : elem_type) (length : Z) (dev : Device),
  (length < 1 ->
     DeviceBuffer_new Device cudaSafeMalloc T length dev =
     (Throw "device buffer length must at least be 1", dev)) /\
  (1 <= length -> length * sizeof T < two64 ->
     DeviceBuffer_new Device cudaSafeMalloc T length dev =
     match cudaSafeMalloc dev (length * sizeof T) with
     | (Ok p, dev') => (Ok (mkDeviceBuffer (length * sizeof T) p), dev')
     | (Throw what, dev') => (Throw what, dev')
     end).
Proof.
  intros Device cudaSafeMalloc T length dev.
  unfold DeviceBuffer_new, allocate. split.
  - intros Hlt. apply Z.ltb_lt in Hlt. rewrite Hlt. reflexivity.
  - intros Hge Hfit. apply Z.ltb_ge in Hge. rewrite Hge.
    assert (Hsz : to_size_t (length * sizeof T) = length * sizeof T).
    { unfold to_size_t. apply Z.mod_small. pose proof (sizeof_pos T).
      apply Z.ltb_ge in Hge. nia. }
    rewrite Hsz. reflexivity.
Qed.

(** On the recording device: a request for no element throws and nothing is
    recorded; a request for four doubles records one allocation of 32
    bytes. *)
Lemma device_buffer_construction_witness :
  DeviceBuffer_new (list Z) recording_malloc EDouble 0 [] =
  (Throw "device buffer length must at least be 1", []) /\
  DeviceBuffer_new (list Z) recording_malloc EDouble 4 [] =
  (Ok (mkDeviceBuffer 32 0), [32]).
Proof.
  split.
  - apply (proj1 (device_buffer_construction (list Z) recording_malloc
                    EDouble 0 [])).
    lia.
  - apply (proj2 (device_buffer_construction (list Z) recording_malloc
                    EDouble 4 [])).
    + lia.
    + reflexivity.
Defined.

End DeviceBufferFacts.

(** ** Widths of the output channels *)

(** C4, the claim as stated fails: the torsion kernel's energy array has
    the element type of its force array, [unsigned long long], not a type
    twice as wide. *)
Lemma torsion_energy_is_not_wide :
  ~ Forall wide_energy potential_kernels.
Proof.
  intros Hall. apply Forall_cons in Hall as [Ht _].
  unfold wide_energy in Ht. cbn in Ht. lia.
Qed.

Section Widths.
Context {RealType : Type} `{RealOps RealType} `{HelperOps RealType}.

Lemma decoders_share_exponent (v : Z) :
  FIXED_ENERGY_TO_FLOAT v = rdiv (of_Z (to_ll v)) (of_Z FIXED_EXPONENT) /\
  FIXED_TO_FLOAT v = rdiv (of_Z (to_ll v)) (of_Z FIXED_EXPONENT) /\
  FIXED_ENERGY_TO_FLOAT v = FIXED_TO_FLOAT (to_ull v).
Proof.
  unfold FIXED_ENERGY_TO_FLOAT, FIXED_TO_FLOAT.
  rewrite to_ll_to_ull. repeat split; reflexivity.
Qed.

End Widths.

(** C4, amended: the log-flat-bottom bond kernel keeps energies in a
    128-bit array, twice the 64 bits of its force array, and every value it
    stores is a 128-bit value.  The torsion kernel accumulates energies in
    the same 64-bit unsigned type as its forces, modulo 2^64.  The energy
    decoder divides by [FIXED_EXPONENT], the divisor of the force decoder,
    and agrees with the force decoder on the low 64 bits of its argument. *)
Theorem energy_channel_widths :
  bits (u_t k_log_flat_bottom_bond_sig) =
    2 * bits (du_dx_t k_log_flat_bottom_bond_sig) /\
  u_t k_periodic_torsion_sig = du_dx_t k_periodic_torsion_sig /\
  bits (u_t k_periodic_torsion_sig) = 64 /\
  (forall (RealType : Type) (ops : RealOps RealType)
          (helpers : HelperOps RealType)
          D T nt coords params torsion_idxs
          B nb coords' box params' bond_idxs beta o1 o2,
     accumulates_into (u_t k_periodic_torsion_sig)
       (on_u (k_periodic_torsion D T nt coords params torsion_idxs) o1 o2) /\
     (forall buf s x,
        (s < nb /\ s < B)%nat ->
        on_u (k_log_flat_bottom_bond B nb coords' box params' bond_idxs beta)
             o1 o2 buf !! s = Some x ->
        fits (u_t k_log_flat_bottom_bond_sig) x)) /\
  (forall (RealType : Type) (ops : RealOps RealType) (v : Z),
     FIXED_ENERGY_TO_FLOAT v = rdiv (of_Z (to_ll v)) (of_Z FIXED_EXPONENT) /\
     FIXED_TO_FLOAT v = rdiv (of_Z (to_ll v)) (of_Z FIXED_EXPONENT) /\
     FIXED_ENERGY_TO_FLOAT v = FIXED_TO_FLOAT (to_ull v)).
Proof.
  split; [reflexivity|]. split; [reflexivity|]. split; [reflexivity|].
  split.
  - intros RealType ops helpers D T nt coords params torsion_idxs
           B nb coords' box params' bond_idxs beta o1 o2.
    split; [apply torsion_arrays_accumulate|].
    intros buf s x Hs' Hx.
    rewrite bond_energy_lookup, decide_True in Hx by exact Hs'.
    destruct (buf !! s); [|discriminate]. cbn in Hx.
    injection Hx as <-. unfold fits. cbn [u_t k_log_flat_bottom_bond_sig wrap].
    apply to_int128_id, to_int128_range.
  - intros RealType ops v. apply decoders_share_exponent.
Qed.

(** ** Displacements *)

Lemma Znearbyint_error x : (Rabs (x - IZR (Znearbyint x)) <= 1 / 2)%R.
Proof.
  unfold Znearbyint. cbv zeta.
  pose proof (Zfloor_bound x) as [Hlo Hhi].
  destruct (Rlt_dec (x - IZR (Zfloor x)) (1 / 2)) as [Hlt|Hge].
  - apply Rabs_le. lra.
  - destruct (Rlt_dec (1 / 2) (x - IZR (Zfloor x))) as [Hgt|Hle].
    + rewrite plus_IZR. apply Rabs_le. lra.
    + destruct (Z.even (Zfloor x)).
      * apply Rabs_le. lra.
      * rewrite plus_IZR. apply Rabs_le. lra.
Qed.

(** Over the reals the displacement of the bond kernel is a minimum image
    of the coordinate difference, for the box's diagonal entry. *)
Lemma lfbb_delta_minimum_image (coords box : list R) src_idx dst_idx d :
  (0 < rd box (d * 3 + d))%R ->
  is_minimum_image (rd box (d * 3 + d))
    (rd coords (src_idx * 3 + d) - rd coords (dst_idx * 3 + d))%R
    (lfbb_delta coords box src_idx dst_idx d).
Proof.
  intros HL. unfold lfbb_delta, is_minimum_image. cbn.
  set (L := rd box (d * 3 + d)) in *.
  set (delta := (rd coords (src_idx * 3 + d) - rd coords (dst_idx * 3 + d))%R).
  unfold Rnearbyint. split.
  - exists (Znearbyint (delta / L)). lra.
  - pose proof (Znearbyint_error (delta / L)) as Herr.
    replace (delta - L * IZR (Znearbyint (delta / L)))%R
      with (L * (delta / L - IZR (Znearbyint (delta / L))))%R
      by (field; lra).
    rewrite Rabs_mult, (Rabs_pos_eq L) by lra.
    nra.
Qed.

(** C3, the claim as stated fails on the torsion kernel: for the two atoms
    of the periodic example, in a box of side 10, the displacement the
    kernel uses along x is 9, which is longer than half the box. *)
Lemma torsion_displacement_is_not_wrapped :
  ~ (forall (coords : list R) (i_idx j_idx d : nat) (L : R),
       (0 < L)%R ->
       is_minimum_image L
         (rd coords (j_idx * 3 + d) - rd coords (i_idx * 3 + d))%R
         (torsion_rij 3 coords i_idx j_idx d)).
Proof.
  intros Hclaim.
  destruct (Hclaim PeriodicExample.coords 0%nat 1%nat 0%nat 10%R
              ltac:(lra)) as [_ Hshort].
  unfold torsion_rij, PeriodicExample.coords in Hshort. cbn in Hshort.
  unfold Rabs in Hshort. destruct (Rcase_abs _) in Hshort; lra.
Qed.

Section Displacements.
Context {RealType : Type} `{RealOps RealType} `{HelperOps RealType}.

(** The displacement the bond kernel feeds to its energy and force
    expressions is [lfbb_delta] between the bond's two atoms. *)
Lemma bond_displacement coords box params bond_idxs beta b_idx d :
  bl_dx (k_log_flat_bottom_bond_locals coords box params bond_idxs beta b_idx)
        d =
  lfbb_delta coords box (ri bond_idxs (b_idx * 2 + 0))
             (ri bond_idxs (b_idx * 2 + 1)) d.
Proof. reflexivity. Qed.

Lemma torsion_displacements_raw D coords a b d :
  torsion_rij D coords a b d =
    rsub (rd coords (b * D + d)) (rd coords (a * D + d)) /\
  torsion_rkj D coords a b d =
    rsub (rd coords (a * D + d)) (rd coords (b * D + d)) /\
  torsion_rkl D coords a b d =
    rsub (rd coords (b * D + d)) (rd coords (a * D + d)).
Proof. repeat split; reflexivity. Qed.

End Displacements.

(** C3, amended: the log-flat-bottom bond kernel wraps each component of
    the displacement between a bond's atoms with the box's diagonal entry,
    [delta - box[d][d] * nearbyint(delta / box[d][d])]; over the reals, for
    a positive box length, that is a minimum image of the coordinate
    difference.  The periodic torsion kernel takes no box: its three
    displacement vectors are plain coordinate differences. *)
Theorem displacement_conventions :
  (forall (RealType : Type) (ops : RealOps RealType)
          (helpers : HelperOps RealType)
          coords box params bond_idxs beta b_idx d,
     let src_idx := ri bond_idxs (b_idx * 2 + 0) in
     let dst_idx := ri bond_idxs (b_idx * 2 + 1) in
     let delta :=
       rsub (rd coords (src_idx * 3 + d)) (rd coords (dst_idx * 3 + d)) in
     bl_dx
       (k_log_flat_bottom_bond_locals coords box params bond_idxs beta b_idx)
       d =
     rsub delta
          (rmul (rd box (d * 3 + d))
                (rnearbyint (rdiv delta (rd box (d * 3 + d)))))) /\
  (forall (coords box : list R) src_idx dst_idx d,
     (0 < rd box (d * 3 + d))%R ->
     is_minimum_image (rd box (d * 3 + d))
       (rd coords (src_idx * 3 + d) - rd coords (dst_idx * 3 + d))%R
       (lfbb_delta coords box src_idx dst_idx d)) /\
  (forall (RealType : Type) (ops : RealOps RealType) D coords a b d,
     torsion_rij D coords a b d =
       rsub (rd coords (b * D + d)) (rd coords (a * D + d)) /\
     torsion_rkj D coords a b d =
       rsub (rd coords (a * D + d)) (rd coords (b * D + d)) /\
     torsion_rkl D coords a b d =
       rsub (rd coords (b * D + d)) (rd coords (a * D + d))).
Proof.
  split; [|split].
  - intros RealType ops helpers coords box params bond_idxs beta b_idx d.
    cbv zeta. rewrite bond_displacement. reflexivity.
  - intros coords box src_idx dst_idx d HL.
    apply lfbb_delta_minimum_image. exact HL.
  - intros RealType ops D coords a b d.
    apply torsion_displacements_raw.
Qed.

(** On the periodic example the bond kernel's displacement along x, from
    the atom at 9.5 to the atom at 0.5, is a minimum image of 9 in the box
    of side 10. *)
Lemma displacement_conventions_witness :
  is_minimum_image 10 (19 / 2 - 1 / 2)%R
    (lfbb_delta PeriodicExample.coords PeriodicExample.box 1 0 0).
Proof.
  apply (proj1 (proj2 displacement_conventions)
           PeriodicExample.coords PeriodicExample.box 1%nat 0%nat 0%nat).
  cbn. lra.
Defined.

(** ** langevin_integrator.cu *)

Lemma memset_zero_whole n buf :
  length buf = n -> memset_zero n buf = replicate n 0.
Proof.
  intros Hlen. unfold memset_zero.
  rewrite drop_ge by lia. rewrite Hlen, Nat.min_id. apply app_nil_r.
Qed.

Lemma write_front_whole {A : Type} n (vals : nat -> A) buf :
  length buf = n -> write_front n vals buf = map vals (seq 0 n).
Proof.
  intros Hlen. unfold write_front.
  rewrite drop_ge by lia. rewrite Hlen, Nat.min_id. apply app_nil_r.
Qed.

Lemma cudaSafeMalloc_array_length {A : Type} n (garbage : nat -> A) :
  length (cudaSafeMalloc_array n garbage) = n.
Proof. unfold cudaSafeMalloc_array. rewrite length_map. apply length_seq. Qed.

Section LangevinFacts.
Context {RealType : Type} `{RealOps RealType} `{HelperOps RealType}.
Variable Rng : Type.
Variable curandCreateGenerator : Rng.
Variable curandSetPseudoRandomGeneratorSeed : Rng -> Z -> Rng.
Variable templateCurandNormal :
  Rng -> nat -> RealType -> RealType -> (nat -> RealType) * Rng.
Variable BP : Type.
Variable runner_execute_potentials :
  list BP -> nat -> list RealType -> list RealType -> Buffers -> Buffers.
Variable update_forward_baoab :
  nat -> nat -> RealType -> option (list nat) -> list RealType ->
  list RealType -> list RealType -> list RealType -> list RealType ->
  list Z -> RealType -> list RealType * list RealType.

Local Abbreviation step :=
  (step_fwd Rng templateCurandNormal BP runner_execute_potentials
     update_forward_baoab).
Local Abbreviation steps :=
  (run_steps Rng templateCurandNormal BP runner_execute_potentials
     update_forward_baoab).
Local Abbreviation new :=
  (LangevinIntegrator_new Rng curandCreateGenerator
     curandSetPseudoRandomGeneratorSeed).

Lemma step_fwd_same_coefficients I bps x v box idxs :
  same_coefficients Rng I (fst (step I bps x v box idxs)).
Proof.
  unfold step_fwd, same_coefficients.
  destruct (templateCurandNormal _ _ _ _) as [draw rng'].
  cbn. repeat split; reflexivity.
Qed.

Lemma run_steps_same_coefficients n I bps x v box idxs :
  same_coefficients Rng I (fst (steps n I bps x v box idxs)).
Proof.
  revert I x v. induction n as [|n IH]; intros I x v.
  - cbn. unfold same_coefficients. repeat split; reflexivity.
  - cbn [run_steps].
    pose proof (step_fwd_same_coefficients I bps x v box idxs) as Hs.
    destruct (step I bps x v box idxs) as [I' [x' v']].
    specialize (IH I' x' v').
    destruct (steps n I' bps x' v' box idxs) as [I'' traj].
    cbn in *. unfold same_coefficients in *.
    destruct Hs as (? & ? & ? & ? & ? & ? & ?).
    destruct IH as (? & ? & ? & ? & ? & ? & ?).
    repeat split; congruence.
Qed.

(** Two integrators that differ only in what their scratch arrays hold take
    the same step. *)
Lemma step_fwd_ignores_scratch I I' bps x v box idxs :
  same_coefficients Rng I I' ->
  cr_rng_ Rng I' = cr_rng_ Rng I ->
  length (d_noise_ Rng I) = round_up_even (N_ Rng I * 3) ->
  length (d_noise_ Rng I') = round_up_even (N_ Rng I * 3) ->
  length (d_du_dx_ Rng I) = (N_ Rng I * 3)%nat ->
  length (d_du_dx_ Rng I') = (N_ Rng I * 3)%nat ->
  step I' bps x v box idxs = step I bps x v box idxs.
Proof.
  intros (HN & HT & Hdt & Hf & Hca & Hcb & Hcc) Hrng Hn Hn' Hd Hd'.
  unfold step_fwd.
  rewrite HN, HT, Hdt, Hf, Hca, Hcb, Hcc, Hrng.
  rewrite (memset_zero_whole _ (d_du_dx_ Rng I')) by exact Hd'.
  rewrite (memset_zero_whole _ (d_du_dx_ Rng I)) by exact Hd.
  destruct (templateCurandNormal _ _ _ _) as [draw rng'].
  rewrite (write_front_whole _ _ (d_noise_ Rng I')) by exact Hn'.
  rewrite (write_front_whole _ _ (d_noise_ Rng I)) by exact Hn.
  reflexivity.
Qed.

(** C8: two integrators built from the same atom count, masses,
    temperature, timestep, friction and seed, whatever their freshly
    allocated scratch arrays happen to hold, produce the same positions and
    velocities after every step when they step the same potentials from
    the same positions, velocities and box. *)
Theorem langevin_trajectories_agree :
  forall N masses temperature dt friction seed
         (noise_garbage noise_garbage' : nat -> RealType)
         (du_dx_garbage du_dx_garbage' : nat -> Z)
         n bps x v box idxs,
  snd (steps n
         (new N masses temperature dt friction seed
              noise_garbage du_dx_garbage)
         bps x v box idxs) =
  snd (steps n
         (new N masses temperature dt friction seed
              noise_garbage' du_dx_garbage')
         bps x v box idxs).
Proof.
  intros N masses temperature dt friction seed g1 g1' g2 g2'
         n bps x v box idxs.
  destruct n as [|n]; [reflexivity|].
  cbn [run_steps].
  rewrite (step_fwd_ignores_scratch
             (new N masses temperature dt friction seed g1' g2')
             (new N masses temperature dt friction seed g1 g2)).
  - reflexivity.
  - unfold same_coefficients. cbn. repeat split; reflexivity.
  - reflexivity.
  - cbn. apply cudaSafeMalloc_array_length.
  - cbn. apply cudaSafeMalloc_array_length.
  - cbn. apply cudaSafeMalloc_array_length.
  - cbn. apply cudaSafeMalloc_array_length.
Qed.

(** In any arithmetic, the coefficients an integrator holds after [n]
    steps are the ones its constructor computed from the timestep, the
    friction, the temperature and the masses. *)
Lemma coefficients_after_steps
    N masses temperature dt friction seed noise_garbage du_dx_garbage
    n bps x v box idxs :
  let I :=
    fst (steps n
           (new N masses temperature dt friction seed
                noise_garbage du_dx_garbage)
           bps x v box idxs) in
  let ccs_adjustment :=
    rsqrt (rsub (of_Z 1) (rexp (rmul (rmul (of_Z (-2)) friction) dt))) in
  ca_ Rng I = rexp (rmul (rneg friction) dt) /\
  forall i,
    d_cbs_ Rng I !! i =
      (if (i <? N)%nat then Some (rdiv dt (rd masses i)) else None) /\
    d_ccs_ Rng I !! i =
      (if (i <? N)%nat
       then Some (rmul ccs_adjustment
                       (rsqrt (rdiv (rmul BOLTZ temperature) (rd masses i))))
       else None).
Proof.
  intros I ccs_adjustment.
  pose proof (run_steps_same_coefficients n
                (new N masses temperature dt friction seed
                     noise_garbage du_dx_garbage)
                bps x v box idxs) as Hsame.
  fold I in Hsame.
  destruct Hsame as (_ & _ & _ & _ & Hca & Hcb & Hcc).
  rewrite Hca, Hcb, Hcc. unfold LangevinIntegrator_new.
  cbn [ca_ d_cbs_ d_ccs_].
  split; [reflexivity|].
  intros i. rewrite !list_lookup_fmap.
  destruct (Nat.ltb_spec i N) as [Hlt|Hge].
  - rewrite lookup_seq_lt by exact Hlt. split; reflexivity.
  - rewrite lookup_seq_ge by exact Hge. split; reflexivity.
Qed.

End LangevinFacts.

Lemma exp_double x : (exp (-2 * x) = exp (- x) ^ 2)%R.
Proof.
  replace (-2 * x)%R with (- x + - x)%R by ring.
  rewrite exp_plus. ring.
Qed.

(** C7: over the reals, the constructor sets [ca = exp(-friction * dt)] and,
    for every atom [i] below the atom count, [cb_i = dt / m_i] and
    [cc_i = sqrt(1 - ca^2) * sqrt(kT / m_i)] with [kT = BOLTZ * temperature];
    the arrays have no further entry; and after any number of steps the
    integrator still holds exactly these values. *)
Theorem langevin_coefficients :
  forall (helpers : HelperOps R) (Rng : Type) (curandCreateGenerator : Rng)
         (curandSetPseudoRandomGeneratorSeed : Rng -> Z -> Rng)
         (templateCurandNormal :
            Rng -> nat -> R -> R -> (nat -> R) * Rng)
         (BP : Type)
         (runner_execute_potentials :
            list BP -> nat -> list R -> list R -> Buffers -> Buffers)
         (update_forward_baoab :
            nat -> nat -> R -> option (list nat) -> list R -> list R ->
            list R -> list R -> list R -> list Z -> R -> list R * list R)
         N masses temperature dt friction seed noise_garbage du_dx_garbage
         n bps x v box idxs,
  let I0 :=
    LangevinIntegrator_new Rng curandCreateGenerator
      curandSetPseudoRandomGeneratorSeed N masses temperature dt friction
      seed noise_garbage du_dx_garbage in
  let I :=
    fst (run_steps Rng templateCurandNormal BP runner_execute_potentials
           update_forward_baoab n I0 bps x v box idxs) in
  let ca := exp (- (friction * dt)) in
  let kT := (BOLTZ * temperature)%R in
  ca_ Rng I = ca /\
  forall i,
    d_cbs_ Rng I !! i =
      (if (i <? N)%nat then Some (dt / rd masses i)%R else None) /\
    d_ccs_ Rng I !! i =
      (if (i <? N)%nat
       then Some (sqrt (1 - ca ^ 2) * sqrt (kT / rd masses i))%R
       else None).
Proof.
  intros helpers Rng create set_seed normal BP runner update
         N masses temperature dt friction seed g1 g2 n bps x v box idxs
         I0 I ca kT.
  destruct (coefficients_after_steps Rng create set_seed normal BP runner
              update N masses temperature dt friction seed g1 g2
              n bps x v box idxs) as [Hca Hcoef].
  fold I0 in Hca, Hcoef. fold I in Hca, Hcoef.
  assert (Hexp : exp (- friction * dt) = ca).
  { unfold ca. f_equal. ring. }
  assert (Hadj : sqrt (1 - exp (-2 * friction * dt)) = sqrt (1 - ca ^ 2)).
  { f_equal. f_equal. unfold ca.
    replace (-2 * friction * dt)%R with (-2 * (friction * dt))%R by ring.
    apply exp_double. }
  cbn in Hca, Hcoef. rewrite Hexp in Hca. split; [exact Hca|].
  intros i. destruct (Hcoef i) as [Hcb Hcc]. rewrite Hadj in Hcc.
  split; [exact Hcb | exact Hcc].
Qed.

(** ** Potentials and their runner *)

Section RunnerFacts.
Context {RealType : Type} `{RealOps RealType} `{HelperOps RealType}.

(** The torsion potential meets the accumulate-only contract. *)
Lemma PeriodicTorsion_accumulates T torsion_idxs :
  accumulates (PeriodicTorsion T torsion_idxs).
Proof.
  intros N P d_x d_p d_box.
  pose proof (k_periodic_torsion_lift3 3 T T d_x d_p torsion_idxs) as Hk.
  cbv zeta in Hk.
  eexists _, _, _. intros b. cbn. rewrite Hk. reflexivity.
Qed.

(** The threads of a torsion launch may land in any order. *)
Lemma k_periodic_torsion_any_schedule
    D T coords params torsion_idxs sched sched' b :
  Permutation sched sched' ->
  run_threads (k_periodic_torsion_thread D T coords params torsion_idxs)
              sched b =
  run_threads (k_periodic_torsion_thread D T coords params torsion_idxs)
              sched' b.
Proof.
  intros Hp. rewrite !k_periodic_torsion_batches. cbv zeta.
  apply lift3_ext; intros l; apply apply_adds_perm;
    unfold launch_batch; apply Permutation_flat_map; exact Hp.
Qed.

(** Two accumulate-only potentials can be dispatched in either order. *)
Lemma accumulating_potentials_commute
    (p q : Potential RealType) N P P' d_x d_p d_p' d_box b :
  accumulates p -> accumulates q ->
  execute_device q N P' d_x d_p' d_box (execute_device p N P d_x d_p d_box b) =
  execute_device p N P d_x d_p d_box (execute_device q N P' d_x d_p' d_box b).
Proof.
  intros Hp Hq.
  destruct (Hp N P d_x d_p d_box) as (px & pp & pu & Hp').
  destruct (Hq N P' d_x d_p' d_box) as (qx & qp & qu & Hq').
  rewrite !Hp', !Hq'. cbn.
  destruct (du_dx b), (du_dp b), (u b); cbn;
    rewrite <- ?apply_adds_app;
    repeat (f_equal; try (apply apply_adds_perm, Permutation_app_comm)).
Qed.

Lemma dispatch_any_order (bps bps' : list (BoundPotential RealType))
    N d_x d_box b :
  Permutation bps bps' ->
  Forall (fun bp => accumulates (potential bp)) bps ->
  fold_left
    (fun acc bp =>
       execute_device (potential bp) N (bp_P bp) d_x (bp_d_p bp) d_box acc)
    bps b =
  fold_left
    (fun acc bp =>
       execute_device (potential bp) N (bp_P bp) d_x (bp_d_p bp) d_box acc)
    bps' b.
Proof.
  intros Hp. revert b.
  induction Hp as [|bp l l' Hl IH|bp bq l|l l' l'' Hl IH1 Hl' IH2];
    intros b Hacc.
  - reflexivity.
  - cbn. apply IH. apply Forall_cons in Hacc as [_ Hacc]. exact Hacc.
  - cbn. apply Forall_cons in Hacc as [Hq Hacc].
    apply Forall_cons in Hacc as [Hp _].
    rewrite (accumulating_potentials_commute (potential bp) (potential bq))
      by assumption.
    reflexivity.
  - rewrite IH1 by exact Hacc. apply IH2.
    rewrite <- Hl. exact Hacc.
Qed.


End RunnerFacts.


(** * Further properties *)

(** ** Decoding and overflow *)

Lemma to_ll_range z : is_ll (to_ll z).
Proof.
  unfold is_ll, to_ll, LLONG_MIN, LLONG_MAX.
  pose proof (Z.mod_pos_bound (z + 2 ^ 63) two64 eq_refl) as Hb.
  rewrite two64_eq in *. lia.
Qed.

Lemma to_ll_shift z k : to_ll (z + k * two64) = to_ll z.
Proof.
  unfold to_ll.
  replace (z + k * two64 + 2 ^ 63) with (z + 2 ^ 63 + k * two64) by ring.
  rewrite Z_mod_plus_full. reflexivity.
Qed.

(** X1: an accumulator that passes the overflow check decodes to its own
    value over [FIXED_EXPONENT]: the cast to [long long] inside
    [FIXED_ENERGY_TO_FLOAT] loses nothing. *)
Theorem energy_decode_faithful_without_overflow :
  forall (RealType : Type) (ops : RealOps RealType) (v : Z),
  fixed_point_overflow v = false ->
  FIXED_ENERGY_TO_FLOAT v = rdiv (of_Z v) (of_Z FIXED_EXPONENT).
Proof.
  intros RealType ops v Hno.
  assert (Hin : is_ll v).
  { destruct (fixed_point_overflow v) eqn:Hov; [discriminate|].
    apply not_true_iff_false in Hov.
    rewrite fixed_point_overflow_true in Hov.
    unfold is_ll. lia. }
  unfold FIXED_ENERGY_TO_FLOAT. rewrite (to_ll_id v Hin). reflexivity.
Qed.

(** An accumulator of -3 over the reals. *)
Lemma energy_decode_faithful_without_overflow_witness :
  fixed_point_overflow (-3) = false /\
  FIXED_ENERGY_TO_FLOAT (RealType := R) (-3) =
  rdiv (of_Z (-3)) (of_Z FIXED_EXPONENT).
Proof.
  split; [reflexivity|].
  apply (energy_decode_faithful_without_overflow R R_RealOps (-3)).
  reflexivity.
Defined.

(** X2: without the overflow check the decoder cannot be trusted: whatever
    it returns for a wide accumulator [v], it returns the same for some
    accumulator within the [__int128] range that reports overflow. *)
Theorem energy_decode_blind_to_overflow :
  forall (RealType : Type) (ops : RealOps RealType) (v : Z),
  exists w,
    is_int128 w /\ fixed_point_overflow w = true /\
    FIXED_ENERGY_TO_FLOAT w = FIXED_ENERGY_TO_FLOAT v.
Proof.
  intros RealType ops v. exists (to_ll v + 1 * two64).
  pose proof (to_ll_range v) as Hr.
  unfold is_ll, LLONG_MIN, LLONG_MAX in Hr.
  split; [|split].
  - unfold is_int128, INT128_MIN, INT128_MAX. rewrite two64_eq. lia.
  - apply fixed_point_overflow_true. left.
    unfold LLONG_MAX. rewrite two64_eq. lia.
  - unfold FIXED_ENERGY_TO_FLOAT. rewrite to_ll_shift.
    rewrite (to_ll_id (to_ll v)) by apply to_ll_range. reflexivity.
Qed.

(** ** Accumulating signed contributions *)

Lemma to_ll_congr a b : to_ull a = to_ull b -> to_ll a = to_ll b.
Proof.
  intros Hab. rewrite <- (to_ll_to_ull a), <- (to_ll_to_ull b), Hab.
  reflexivity.
Qed.

Lemma to_ull_to_ll z : to_ull (to_ll z) = to_ull z.
Proof.
  unfold to_ull, to_ll.
  rewrite Zminus_mod, Z.mod_mod by (rewrite two64_eq; lia).
  rewrite <- Zminus_mod. f_equal. ring.
Qed.

Lemma to_ull_add_r a b : to_ull (a + to_ull b) = to_ull (a + b).
Proof. unfold to_ull. apply Zplus_mod_idemp_r. Qed.

Lemma to_ull_to_ll_add x y : to_ull (to_ll x + y) = to_ull (x + y).
Proof. rewrite <- to_ull_add_l, to_ull_to_ll, to_ull_add_l. reflexivity. Qed.

Lemma to_ull_signed_sum old s adds :
  to_ull (old + sum_at s adds) = to_ull (to_ll old + signed_sum_at s adds).
Proof.
  revert old. induction adds as [|[i v] adds IH]; intros old; cbn.
  - rewrite !Z.add_0_r. symmetry. apply to_ull_to_ll.
  - fold (sum_at s adds). fold (signed_sum_at s adds).
    destruct (Nat.eqb i s); [|apply IH].
    replace (old + (v + sum_at s adds)) with ((old + v) + sum_at s adds)
      by ring.
    rewrite IH, !to_ull_to_ll_add.
    replace (old + (to_ll v + signed_sum_at s adds))
      with (to_ll v + (old + signed_sum_at s adds)) by ring.
    rewrite to_ull_to_ll_add. f_equal. ring.
Qed.

(** A batch of additions, slot by slot, with nothing assumed of the array:
    modulo 2^64 a slot ends with its prior value plus what the batch sent
    there. *)
Lemma apply_adds_lookup_mod adds buf s :
  to_ull <$> (apply_adds adds buf !! s) =
  (fun old => to_ull (old + sum_at s adds)) <$> buf !! s.
Proof.
  revert buf. induction adds as [|[i v] adds IH]; intros buf.
  - cbn. destruct (buf !! s); cbn; [|reflexivity].
    rewrite Z.add_0_r. reflexivity.
  - cbn. change (fold_left _ adds ?b) with (apply_adds adds b).
    fold (sum_at s adds). rewrite IH, atomicAdd_lookup.
    destruct (Nat.eqb_spec i s) as [->|Hne].
    + rewrite decide_True by reflexivity.
      destruct (buf !! s); cbn; [|reflexivity].
      f_equal. rewrite to_ull_add_l. f_equal. ring.
    + rewrite decide_False by congruence. reflexivity.
Qed.

(** Decoding a slot after any batch of atomic additions gives the prior
    value and the contributions added up as signed numbers, over
    [FIXED_EXPONENT], whenever that signed total fits [long long]. *)
Lemma decode_after_adds {RealType : Type} `{RealOps RealType}
    (adds : list (nat * Z)) (buf : list Z) (s : nat) (old : Z) :
  buf !! s = Some old ->
  is_ll (to_ll old + signed_sum_at s adds) ->
  FIXED_TO_FLOAT <$> (apply_adds adds buf !! s) =
  Some (rdiv (of_Z (to_ll old + signed_sum_at s adds)) (of_Z FIXED_EXPONENT)).
Proof.
  intros Hold Hfit.
  pose proof (apply_adds_lookup_mod adds buf s) as Hmod.
  rewrite Hold in Hmod. cbn in Hmod.
  destruct (apply_adds adds buf !! s) as [new|]; [|discriminate].
  cbn in Hmod. injection Hmod as Hmod. cbn. f_equal.
  unfold FIXED_TO_FLOAT. do 2 f_equal.
  rewrite <- (to_ll_id _ Hfit). apply to_ll_congr.
  rewrite Hmod. apply to_ull_signed_sum.
Qed.

(** X3: after a torsion launch, decoding a force slot with [FIXED_TO_FLOAT]
    gives the slot's prior value and the launch's contributions to it added
    up as signed numbers, over [FIXED_EXPONENT], whenever that signed total
    fits [long long]: negative contributions travel as large unsigned
    values and partial sums may wrap without harm. *)
Theorem decoded_torsion_force_is_signed_sum :
  forall (RealType : Type) (ops : RealOps RealType)
         (helpers : HelperOps RealType)
         D T nt coords params torsion_idxs dp en
         (buf : list Z) (s : nat) (old : Z),
  let tl := k_periodic_torsion_locals D coords params torsion_idxs in
  let adds :=
    launch_batch T (fun t => torsion_adds_dx D (tl t)) (grid nt) in
  buf !! s = Some old ->
  is_ll (to_ll old + signed_sum_at s adds) ->
  FIXED_TO_FLOAT <$>
    (on_du_dx (k_periodic_torsion D T nt coords params torsion_idxs) dp en buf
       !! s) =
  Some (rdiv (of_Z (to_ll old + signed_sum_at s adds)) (of_Z FIXED_EXPONENT)).
Proof.
  intros RealType ops helpers D T nt coords params torsion_idxs dp en
         buf s old tl adds Hold Hfit.
  rewrite (on_du_dx_lift3 _ _ _ _ _ _ _
             (k_periodic_torsion_lift3 D T nt coords params torsion_idxs)).
  apply decode_after_adds; assumption.
Qed.

(** One torsion over the four atoms of the runner example, on a zeroed
    force array: the x slot of atom 0 receives one contribution, and
    decodes to it. *)
Lemma decoded_torsion_force_is_signed_sum_witness :
  let tl :=
    k_periodic_torsion_locals 3 RunnerExample.coords [1; 0; 2]%R
      [0; 1; 2; 3]%nat in
  let adds :=
    launch_batch 1 (fun t => torsion_adds_dx 3 (tl t)) (grid 1) in
  FIXED_TO_FLOAT (RealType := R) <$>
    (on_du_dx
       (k_periodic_torsion 3 1 1 RunnerExample.coords [1; 0; 2]%R
          [0; 1; 2; 3]%nat)
       None None (replicate 12 0) !! 0%nat) =
  Some (rdiv (of_Z (to_ll 0 + signed_sum_at 0 adds)) (of_Z FIXED_EXPONENT)).
Proof.
  apply (decoded_torsion_force_is_signed_sum R R_RealOps R_HelperOps
           3 1 1 RunnerExample.coords [1; 0; 2]%R [0; 1; 2; 3]%nat
           None None (replicate 12 0) 0%nat 0).
  - reflexivity.
  - unfold launch_batch, grid, torsion_adds_dx, signed_sum_at.
    cbn [seq flat_map app fold_right fst snd Nat.leb Nat.eqb Nat.add Nat.mul
         tl_i_idx tl_j_idx tl_k_idx tl_l_idx k_periodic_torsion_locals ri
         lookup list_lookup default from_option].
    rewrite !Z.add_0_r. change (to_ll 0) with 0. rewrite Z.add_0_l.
    apply to_ll_range.
Defined.

(** ** The bounds check and the order of the threads *)

Lemma run_threads_app body s1 s2 b :
  run_threads body (s1 ++ s2) b = run_threads body s2 (run_threads body s1 b).
Proof. unfold run_threads. apply fold_left_app. Qed.

(** Threads that return at the bounds check leave the arrays alone. *)
Lemma run_threads_idle body (bound : nat) a n b :
  (forall t b', (bound <= t)%nat -> body t b' = b') ->
  (bound <= a)%nat ->
  run_threads body (seq a n) b = b.
Proof.
  intros Hidle. revert a. unfold run_threads.
  induction n as [|n IH]; intros a Ha; cbn; [reflexivity|].
  rewrite Hidle by exact Ha. apply IH. lia.
Qed.

(** A grid larger than the number of terms does what a grid of exactly
    that size does. *)
Lemma run_threads_grid_padding body (bound nt : nat) b :
  (forall t b', (bound <= t)%nat -> body t b' = b') ->
  run_threads body (grid nt) b = run_threads body (grid (Nat.min nt bound)) b.
Proof.
  intros Hidle. unfold grid.
  replace nt with (Nat.min nt bound + (nt - Nat.min nt bound))%nat at 1
    by lia.
  rewrite seq_app, run_threads_app. cbn [Nat.add].
  destruct (Nat.le_gt_cases nt bound) as [Hle|Hgt].
  - replace (nt - Nat.min nt bound)%nat with 0%nat by lia. reflexivity.
  - apply (run_threads_idle body bound); [exact Hidle | lia].
Qed.

Section BoundsCheck.
Context {RealType : Type} `{RealOps RealType} `{HelperOps RealType}.

Lemma k_periodic_torsion_thread_idle D T coords params torsion_idxs t b :
  (T <= t)%nat ->
  k_periodic_torsion_thread D T coords params torsion_idxs t b = b.
Proof.
  intros Hle. unfold k_periodic_torsion_thread.
  apply Nat.leb_le in Hle. rewrite Hle. reflexivity.
Qed.

Lemma k_log_flat_bottom_bond_thread_idle
    B coords box params bond_idxs beta t b :
  (B <= t)%nat ->
  k_log_flat_bottom_bond_thread B coords box params bond_idxs beta t b = b.
Proof.
  intros Hle. unfold k_log_flat_bottom_bond_thread.
  apply Nat.leb_le in Hle. rewrite Hle. reflexivity.
Qed.

(** X4: the torsion kernel may be launched on any grid that covers its
    terms: threads beyond the last term return at once, so a grid of [nt]
    threads does what a grid of [min nt T] threads does, and a launch with
    no term leaves every output array as it was. *)
Theorem k_periodic_torsion_grid_padding :
  forall D T nt coords params torsion_idxs b,
  k_periodic_torsion D T nt coords params torsion_idxs b =
  k_periodic_torsion D T (Nat.min nt T) coords params torsion_idxs b /\
  k_periodic_torsion D 0 nt coords params torsion_idxs b = b.
Proof.
  intros D T nt coords params torsion_idxs b. unfold k_periodic_torsion.
  split.
  - apply run_threads_grid_padding. intros t b' Hle.
    apply k_periodic_torsion_thread_idle. exact Hle.
  - apply (run_threads_idle _ 0%nat); [|lia]. intros t b' Hle.
    apply k_periodic_torsion_thread_idle. exact Hle.
Qed.

(** X5: the same for the log-flat-bottom bond kernel: a grid of [nb]
    threads does what a grid of [min nb B] threads does, and a launch with
    no bond leaves every output array, the energy array included, as it
    was. *)
Theorem k_log_flat_bottom_bond_grid_padding :
  forall B nb coords box params bond_idxs beta b,
  k_log_flat_bottom_bond B nb coords box params bond_idxs beta b =
  k_log_flat_bottom_bond B (Nat.min nb B) coords box params bond_idxs beta b /\
  k_log_flat_bottom_bond 0 nb coords box params bond_idxs beta b = b.
Proof.
  intros B nb coords box params bond_idxs beta b.
  unfold k_log_flat_bottom_bond. split.
  - apply run_threads_grid_padding. intros t b' Hle.
    apply k_log_flat_bottom_bond_thread_idle. exact Hle.
  - apply (run_threads_idle _ 0%nat); [|lia]. intros t b' Hle.
    apply k_log_flat_bottom_bond_thread_idle. exact Hle.
Qed.

End BoundsCheck.

(** Assignments by threads that each write the slot of their own index, in
    any order and with any repetition: a slot ends with its thread's value
    when that thread ran and passed the bounds check. *)
Lemma along_stores_lookup_sched bound (f : nat -> Z) sched buf s :
  along (fun t acc => if (bound <=? t)%nat then acc else store128 acc t (f t))
        sched buf !! s =
  if decide (s ∈ sched /\ (s < bound)%nat)
  then (fun _ => to_int128 (f s)) <$> buf !! s
  else buf !! s.
Proof.
  unfold along. revert buf.
  induction sched as [|t sched IH]; intros buf; cbn.
  - rewrite decide_False; [reflexivity|].
    intros [Hin _]. apply elem_of_nil in Hin. exact Hin.
  - rewrite IH.
    assert (Hcons : s ∈ t :: sched <-> s = t \/ s ∈ sched)
      by apply elem_of_cons.
    destruct (Nat.leb_spec bound t) as [Hle|Hlt];
      rewrite ?store128_lookup;
      repeat case_decide; subst;
      try reflexivity;
      try (destruct (buf !! t); reflexivity);
      exfalso; intuition (try lia; try congruence).
Qed.

Section Schedules.
Context {RealType : Type} `{RealOps RealType} `{HelperOps RealType}.

(** X6: the threads of a launch may land in any order: for two schedules
    that are permutations of one another, the torsion kernel leaves the
    same three arrays, and so does the log-flat-bottom bond kernel, whose
    energy assignments go to one slot per thread. *)
Theorem kernels_any_thread_order :
  forall D T coords params torsion_idxs
         B coords' box params' bond_idxs beta
         (sched sched' : list nat) b,
  Permutation sched sched' ->
  run_threads (k_periodic_torsion_thread D T coords params torsion_idxs)
              sched b =
  run_threads (k_periodic_torsion_thread D T coords params torsion_idxs)
              sched' b /\
  run_threads
    (k_log_flat_bottom_bond_thread B coords' box params' bond_idxs beta)
    sched b =
  run_threads
    (k_log_flat_bottom_bond_thread B coords' box params' bond_idxs beta)
    sched' b.
Proof.
  intros D T coords params torsion_idxs B coords' box params' bond_idxs beta
         sched sched' b Hp.
  split.
  - rewrite !k_periodic_torsion_batches. cbv zeta.
    apply lift3_ext; intros l; apply apply_adds_perm;
      unfold launch_batch; apply Permutation_flat_map; exact Hp.
  - rewrite !k_log_flat_bottom_bond_batches. cbv zeta.
    apply lift3_ext; intros l.
    + apply apply_adds_perm. unfold launch_batch.
      apply Permutation_flat_map. exact Hp.
    + apply apply_adds_perm. unfold launch_batch.
      apply Permutation_flat_map. exact Hp.
    + apply list_eq. intros s. rewrite !along_stores_lookup_sched.
      destruct (decide (s ∈ sched /\ (s < B)%nat)) as [Hd|Hd].
      * rewrite decide_True; [reflexivity|].
        destruct Hd as [Hin Hs]. split; [|exact Hs].
        rewrite <- Hp. exact Hin.
      * rewrite decide_False; [reflexivity|].
        intros [Hin Hs]. apply Hd. split; [|exact Hs].
        rewrite Hp. exact Hin.
Qed.

End Schedules.

(** Three threads in index order and in another order, on the runner
    example's atoms with three torsions and on the example bond. *)
Lemma kernels_any_thread_order_witness :
  run_threads
    (k_periodic_torsion_thread 3 3 RunnerExample.coords
       [1; 0; 2; 2; 1; 3; 1; 1; 1]%R [0; 1; 2; 3; 3; 2; 1; 0; 1; 0; 3; 2]%nat)
    [0; 1; 2]%nat RunnerExample.outputs =
  run_threads
    (k_periodic_torsion_thread 3 3 RunnerExample.coords
       [1; 0; 2; 2; 1; 3; 1; 1; 1]%R [0; 1; 2; 3; 3; 2; 1; 0; 1; 0; 3; 2]%nat)
    [2; 0; 1]%nat RunnerExample.outputs /\
  run_threads
    (k_log_flat_bottom_bond_thread 1 Examples.bond_coords Examples.bond_box
       Examples.bond_params Examples.bond_idxs Examples.bond_beta)
    [0; 1; 2]%nat RunnerExample.outputs =
  run_threads
    (k_log_flat_bottom_bond_thread 1 Examples.bond_coords Examples.bond_box
       Examples.bond_params Examples.bond_idxs Examples.bond_beta)
    [2; 0; 1]%nat RunnerExample.outputs.
Proof.
  apply (kernels_any_thread_order (RealType := R)).
  apply (perm_trans (l' := [0; 2; 1]%nat)).
  - apply perm_skip, perm_swap.
  - apply perm_swap.
Defined.

(** ** Parameter gradients are per term *)

(** Threads that each add to the three slots [3t], [3t+1], [3t+2] never
    meet: after the launch a slot of a term the grid covers holds its prior
    value plus that term's own contribution, and nothing else. *)
Lemma apply_adds_triples_lookup T (a b c : nat -> Z) nt buf t j :
  (j < 3)%nat ->
  apply_adds
    (launch_batch T
       (fun t => [((t * 3 + 0)%nat, a t); ((t * 3 + 1)%nat, b t);
                  ((t * 3 + 2)%nat, c t)])
       (seq 0 nt))
    buf !! (t * 3 + j)%nat =
  if decide (t < Nat.min nt T)%nat
  then (fun old => to_ull (old + nth j [a t; b t; c t] 0))
         <$> buf !! (t * 3 + j)%nat
  else buf !! (t * 3 + j)%nat.
Proof.
  intros Hj. induction nt as [|n IH].
  - cbn. rewrite decide_False by lia. reflexivity.
  - rewrite seq_S. unfold launch_batch in *. rewrite flat_map_app.
    rewrite apply_adds_app. cbn [flat_map Nat.add].
    destruct (Nat.leb_spec T n) as [Hle|Hlt]; cbn [app].
    + change (apply_adds [] ?x) with x. rewrite IH.
      repeat case_decide; try reflexivity; lia.
    + unfold apply_adds at 1. cbn [fold_left fst snd].
      rewrite !atomicAdd_lookup, IH.
      destruct j as [|[|[|j]]]; try lia; cbn [nth];
        repeat case_decide; try reflexivity; try lia;
        match goal with
        | Heq : (_ * 3 + _)%nat = (_ * 3 + _)%nat |- _ =>
            assert (t = n) by lia; subst; reflexivity
        end.
Qed.

Section PerTermGradients.
Context {RealType : Type} `{RealOps RealType} `{HelperOps RealType}.

(** X7: in the torsion kernel each term owns three slots of the
    parameter-gradient array.  After a launch, for every term [t] the grid
    covers, the slots [3t], [3t+1], [3t+2] hold their prior values plus the
    encoded gradients with respect to [kt], [phase] and [period] of that
    term alone (modulo 2^64); the slots of terms the grid does not cover
    are as before. *)
Theorem torsion_parameter_gradients_per_term :
  forall D T nt coords params torsion_idxs dx en (buf : list Z) (t : nat),
  let tl := k_periodic_torsion_locals D coords params torsion_idxs t in
  let after :=
    on_du_dp (k_periodic_torsion D T nt coords params torsion_idxs) dx en buf in
  let plus (g : RealType) (slot : nat) :=
    if decide (t < Nat.min nt T)%nat
    then (fun old => to_ull (old + FLOAT_TO_FIXED_BONDED g)) <$> buf !! slot
    else buf !! slot in
  after !! (t * 3 + 0)%nat = plus (torsion_du_dkt tl) (t * 3 + 0)%nat /\
  after !! (t * 3 + 1)%nat = plus (torsion_du_dphase tl) (t * 3 + 1)%nat /\
  after !! (t * 3 + 2)%nat = plus (torsion_du_dperiod tl) (t * 3 + 2)%nat.
Proof.
  intros D T nt coords params torsion_idxs dx en buf t tl after plus.
  unfold after, plus.
  rewrite !(on_du_dp_lift3 _ _ _ _ _ _ _
              (k_periodic_torsion_lift3 D T nt coords params torsion_idxs)).
  unfold grid.
  pose proof (apply_adds_triples_lookup T
    (fun t => FLOAT_TO_FIXED_BONDED
       (torsion_du_dkt
          (k_periodic_torsion_locals D coords params torsion_idxs t)))
    (fun t => FLOAT_TO_FIXED_BONDED
       (torsion_du_dphase
          (k_periodic_torsion_locals D coords params torsion_idxs t)))
    (fun t => FLOAT_TO_FIXED_BONDED
       (torsion_du_dperiod
          (k_periodic_torsion_locals D coords params torsion_idxs t)))
    nt buf t) as Hslots.
  repeat split.
  - exact (Hslots 0%nat ltac:(lia)).
  - exact (Hslots 1%nat ltac:(lia)).
  - exact (Hslots 2%nat ltac:(lia)).
Qed.

(** X8: likewise in the log-flat-bottom bond kernel: for every bond [t] the
    grid covers, the slots [3t], [3t+1], [3t+2] of the parameter-gradient
    array hold their prior values plus the encoded gradients with respect
    to [k], [rmin] and [rmax] of that bond alone (modulo 2^64); the slots
    of bonds the grid does not cover are as before. *)
Theorem bond_parameter_gradients_per_term :
  forall B nb coords box params bond_idxs beta dx en (buf : list Z) (t : nat),
  let bl :=
    k_log_flat_bottom_bond_locals coords box params bond_idxs beta t in
  let after :=
    on_du_dp (k_log_flat_bottom_bond B nb coords box params bond_idxs beta)
      dx en buf in
  let plus (g : RealType) (slot : nat) :=
    if decide (t < Nat.min nb B)%nat
    then (fun old => to_ull (old + FLOAT_TO_FIXED_BONDED g)) <$> buf !! slot
    else buf !! slot in
  after !! (t * 3 + 0)%nat = plus (lfbb_du_dk bl) (t * 3 + 0)%nat /\
  after !! (t * 3 + 1)%nat = plus (lfbb_du_drmin bl) (t * 3 + 1)%nat /\
  after !! (t * 3 + 2)%nat = plus (lfbb_du_drmax bl) (t * 3 + 2)%nat.
Proof.
  intros B nb coords box params bond_idxs beta dx en buf t bl after plus.
  unfold after, plus.
  rewrite !(on_du_dp_lift3 _ _ _ _ _ _ _
              (k_log_flat_bottom_bond_lift3 B nb coords box params bond_idxs
                 beta)).
  unfold grid.
  pose proof (apply_adds_triples_lookup B
    (fun t => FLOAT_TO_FIXED_BONDED
       (lfbb_du_dk
          (k_log_flat_bottom_bond_locals coords box params bond_idxs beta t)))
    (fun t => FLOAT_TO_FIXED_BONDED
       (lfbb_du_drmin
          (k_log_flat_bottom_bond_locals coords box params bond_idxs beta t)))
    (fun t => FLOAT_TO_FIXED_BONDED
       (lfbb_du_drmax
          (k_log_flat_bottom_bond_locals coords box params bond_idxs beta t)))
    nb buf t) as Hslots.
  repeat split.
  - exact (Hslots 0%nat ltac:(lia)).
  - exact (Hslots 1%nat ltac:(lia)).
  - exact (Hslots 2%nat ltac:(lia)).
Qed.

End PerTermGradients.

(** ** Exact arithmetic: symmetry of the bond, the stable logarithm *)

(** The nearest integer is the integer within half a unit, when there is
    one. *)
Lemma Znearbyint_unique x n :
  (Rabs (x - IZR n) < 1 / 2)%R -> Znearbyint x = n.
Proof.
  intros Hnear. apply Rabs_def2 in Hnear as [Hhi Hlo].
  unfold Znearbyint. cbv zeta.
  destruct (Rle_lt_dec (IZR n) x) as [Hge|Hlt].
  - assert (Hf : Zfloor x = n) by (apply Zfloor_eq; lra).
    rewrite Hf. destruct (Rlt_dec (x - IZR n) (1 / 2)); [reflexivity|lra].
  - assert (Hf : Zfloor x = n - 1).
    { apply Zfloor_eq. rewrite minus_IZR. lra. }
    rewrite Hf, minus_IZR.
    destruct (Rlt_dec (x - (IZR n - 1)) (1 / 2)); [lra|].
    destruct (Rlt_dec (1 / 2) (x - (IZR n - 1))); [lia|lra].
Qed.

(** At a tie the even neighbour is chosen. *)
Lemma Znearbyint_tie f :
  Znearbyint (IZR f + 1 / 2) = if Z.even f then f else f + 1.
Proof.
  unfold Znearbyint. cbv zeta.
  assert (Hf : Zfloor (IZR f + 1 / 2) = f) by (apply Zfloor_eq; lra).
  rewrite Hf.
  destruct (Rlt_dec (IZR f + 1 / 2 - IZR f) (1 / 2)); [lra|].
  destruct (Rlt_dec (1 / 2) (IZR f + 1 / 2 - IZR f)); [lra|].
  reflexivity.
Qed.

(** Rounding to nearest, ties to even, is an odd function. *)
Lemma Znearbyint_opp x : Znearbyint (- x) = - Znearbyint x.
Proof.
  pose proof (Zfloor_bound x) as [Hlo Hhi].
  destruct (Rtotal_order (x - IZR (Zfloor x)) (1 / 2)) as [Hlt|[Heq|Hgt]].
  - rewrite (Znearbyint_unique x (Zfloor x))
      by (apply Rabs_def1; lra).
    apply Znearbyint_unique. rewrite opp_IZR. apply Rabs_def1; lra.
  - replace x with (IZR (Zfloor x) + 1 / 2)%R at 2 by lra.
    replace (- x)%R with (IZR (- Zfloor x - 1) + 1 / 2)%R
      by (rewrite minus_IZR, opp_IZR; lra).
    rewrite !Znearbyint_tie.
    replace (- Zfloor x - 1) with (- (Zfloor x + 1)) by ring.
    rewrite Z.even_opp, Z.even_add. cbn.
    destruct (Z.even (Zfloor x)); cbn; ring.
  - rewrite (Znearbyint_unique x (Zfloor x + 1))
      by (rewrite plus_IZR; apply Rabs_def1; lra).
    apply Znearbyint_unique. rewrite opp_IZR, plus_IZR.
    apply Rabs_def1; lra.
Qed.

Lemma Rnearbyint_opp x : Rnearbyint (- x) = (- Rnearbyint x)%R.
Proof. unfold Rnearbyint. rewrite Znearbyint_opp. apply opp_IZR. Qed.

Lemma lfbb_delta_swap (coords box : list R) a b d :
  lfbb_delta coords box b a d = (- lfbb_delta coords box a b d)%R.
Proof.
  unfold lfbb_delta. cbn.
  replace ((rd coords (b * 3 + d) - rd coords (a * 3 + d)) /
           rd box (d * 3 + d))%R
    with (- ((rd coords (a * 3 + d) - rd coords (b * 3 + d)) /
             rd box (d * 3 + d)))%R
    by (unfold Rdiv; ring).
  rewrite Rnearbyint_opp. ring.
Qed.

Lemma bond_distance {RealType : Type} `{RealOps RealType}
    `{HelperOps RealType} coords box params bond_idxs beta b_idx :
  let bl :=
    k_log_flat_bottom_bond_locals coords box params bond_idxs beta b_idx in
  bl_r bl =
  rsqrt (radd (radd (radd (of_Z 0)
                          (rmul (bl_dx bl 0%nat) (bl_dx bl 0%nat)))
                    (rmul (bl_dx bl 1%nat) (bl_dx bl 1%nat)))
              (rmul (bl_dx bl 2%nat) (bl_dx bl 2%nat))) /\
  bl_r_gt_rmax bl = of_bool (rlt (bl_rmax bl) (bl_r bl)) /\
  bl_r_lt_rmin bl = of_bool (rlt (bl_r bl) (bl_rmin bl)) /\
  bl_nrg bl =
    compute_flat_bottom_energy (bl_k bl) (bl_r bl) (bl_rmin bl) (bl_rmax bl) /\
  bl_k bl = rd params (b_idx * 3 + 0) /\
  bl_rmin bl = rd params (b_idx * 3 + 1) /\
  bl_rmax bl = rd params (b_idx * 3 + 2).
Proof. repeat split; reflexivity. Qed.

(** X9: in exact arithmetic the log-flat-bottom bond does not depend on the
    order in which a bond lists its two atoms: swapping them negates each
    component of the minimum-image displacement and leaves the distance,
    both masks and the energy [u_real] unchanged. *)
Theorem bond_symmetric_in_its_atoms :
  forall (helpers : HelperOps R) (coords box params : list R)
         (a b : nat) (beta : R),
  let ab :=
    k_log_flat_bottom_bond_locals coords box params [a; b] beta 0 in
  let ba :=
    k_log_flat_bottom_bond_locals coords box params [b; a] beta 0 in
  (forall d, bl_dx ba d = (- bl_dx ab d)%R) /\
  bl_r ba = bl_r ab /\
  bl_r_gt_rmax ba = bl_r_gt_rmax ab /\
  bl_r_lt_rmin ba = bl_r_lt_rmin ab /\
  lfbb_u_real beta ba = lfbb_u_real beta ab.
Proof.
  intros helpers coords box params a b beta ab ba.
  assert (Hdx : forall d, bl_dx ba d = (- bl_dx ab d)%R).
  { intros d.
    change (lfbb_delta coords box b a d = (- lfbb_delta coords box a b d)%R).
    apply lfbb_delta_swap. }
  destruct (bond_distance coords box params [a; b] beta 0)
    as (Hr1 & Hgt1 & Hlt1 & Hnrg1 & Hk1 & Hmin1 & Hmax1).
  destruct (bond_distance coords box params [b; a] beta 0)
    as (Hr2 & Hgt2 & Hlt2 & Hnrg2 & Hk2 & Hmin2 & Hmax2).
  fold ab in Hr1, Hgt1, Hlt1, Hnrg1, Hk1, Hmin1, Hmax1.
  fold ba in Hr2, Hgt2, Hlt2, Hnrg2, Hk2, Hmin2, Hmax2.
  assert (Hr : bl_r ba = bl_r ab).
  { rewrite Hr1, Hr2, !Hdx. cbn [radd rmul of_Z rsqrt R_RealOps].
    apply (f_equal sqrt). ring. }
  split; [exact Hdx|]. split; [exact Hr|].
  split; [rewrite Hgt1, Hgt2, Hr, Hmax1, Hmax2; reflexivity|].
  split; [rewrite Hlt1, Hlt2, Hr, Hmin1, Hmin2; reflexivity|].
  unfold lfbb_u_real.
  rewrite Hnrg1, Hnrg2, Hr, Hk1, Hk2, Hmin1, Hmin2, Hmax1, Hmax2.
  reflexivity.
Qed.

(** X10: in exact arithmetic the two branches of [stable_log_1_exp_neg]
    compute the same function, [log(1 - exp(-x))], so the bond energy is
    [-log(1 - exp(-beta * nrg)) / beta], the formula the kernel keeps in a
    comment. *)
Theorem stable_log_is_log_one_minus_exp :
  forall (helpers : HelperOps R) (x beta : R) (bl : lfbb_locals),
  stable_log_1_exp_neg x = ln (1 - exp (- x)) /\
  lfbb_u_real beta bl = (- ln (1 - exp (- (beta * bl_nrg bl))) / beta)%R.
Proof.
  intros helpers x beta bl.
  assert (Hs : forall y : R, stable_log_1_exp_neg y = ln (1 - exp (- y))).
  { intros y. unfold stable_log_1_exp_neg.
    cbn [rlt rlog rneg rexpm1 rlog1p rexp R_RealOps].
    destruct (Rlt_dec y LOG_2); apply (f_equal ln); ring. }
  split; [apply Hs|].
  unfold lfbb_u_real. rewrite Hs. reflexivity.
Qed.

(** ** The torsion gradients and the cross product *)

Section TorsionAlgebra.
Context {RealType : Type} `{RealOps RealType} `{HelperOps RealType}.

(** Lines 84-87: the gradients with respect to the two inner atoms are
    combinations of those with respect to the two outer ones, with the
    same three scalars in both. *)
Lemma torsion_inner_gradients D coords params torsion_idxs t :
  let tl := k_periodic_torsion_locals D coords params torsion_idxs t in
  exists a b c : RealType,
  forall d,
    tl_d_angle_dR1 tl d =
      rsub (rmul (rsub (rdiv a c) (of_Z 1)) (tl_d_angle_dR0 tl d))
           (rdiv (rmul (tl_d_angle_dR3 tl d) b) c) /\
    tl_d_angle_dR2 tl d =
      rsub (rmul (rsub (rdiv b c) (of_Z 1)) (tl_d_angle_dR3 tl d))
           (rdiv (rmul (tl_d_angle_dR0 tl d) a) c).
Proof. cbv zeta. eexists _, _, _. intros d. split; reflexivity. Qed.

(** X12: [cross_product] is anticommutative in any arithmetic whose
    [__dmul_rn] product is commutative and whose difference changes sign
    when its operands are swapped, which is what the kernel's comment asks
    of it: [cross(a, b)] is the negation of [cross(b, a)], component by
    component. *)
Theorem cross_product_anticommutative :
  (forall x y : RealType, rmul_rn x y = rmul_rn y x) ->
  (forall x y : RealType, rsub x y = rneg (rsub y x)) ->
  forall (a b : vec3) (d : nat),
  cross_product a b d = rneg (cross_product b a d).
Proof.
  intros Hcomm Hanti a b d. unfold cross_product.
  destruct d as [|[|d]];
    rewrite Hanti; do 2 f_equal; apply Hcomm.
Qed.

End TorsionAlgebra.

(** Over the real numbers, on the vectors (1, 2, 3) and (4, 5, 6). *)
Lemma cross_product_anticommutative_witness :
  cross_product (RealType := R)
    (fun d => nth d [1; 2; 3]%R 0%R) (fun d => nth d [4; 5; 6]%R 0%R)
    0%nat =
  rneg (cross_product (RealType := R)
          (fun d => nth d [4; 5; 6]%R 0%R) (fun d => nth d [1; 2; 3]%R 0%R)
          0%nat).
Proof.
  apply (cross_product_anticommutative (RealType := R)).
  - intros x y. cbn. ring.
  - intros x y. cbn. ring.
Defined.

(** X11: in exact arithmetic the four gradients of the torsion angle, with
    respect to the positions of atoms i, j, k, l, add up to zero in every
    dimension, and so do the four force contributions a torsion thread
    passes to the encoder (each gradient times the prefactor): a torsion
    term exerts no net force. *)
Theorem torsion_gradients_sum_to_zero :
  forall (helpers : HelperOps R) D (coords params : list R)
         (torsion_idxs : list nat) (t d : nat),
  let tl := k_periodic_torsion_locals D coords params torsion_idxs t in
  (tl_d_angle_dR0 tl d + tl_d_angle_dR1 tl d +
   tl_d_angle_dR2 tl d + tl_d_angle_dR3 tl d = 0)%R /\
  (rmul (tl_d_angle_dR0 tl d) (tl_prefactor tl) +
   rmul (tl_d_angle_dR1 tl d) (tl_prefactor tl) +
   rmul (tl_d_angle_dR2 tl d) (tl_prefactor tl) +
   rmul (tl_d_angle_dR3 tl d) (tl_prefactor tl) = 0)%R.
Proof.
  intros helpers D coords params torsion_idxs t d tl.
  destruct (torsion_inner_gradients D coords params torsion_idxs t)
    as (a & b & c & Hinner).
  destruct (Hinner d) as [H1 H2]. fold tl in H1, H2.
  assert (Hsum : (tl_d_angle_dR0 tl d + tl_d_angle_dR1 tl d +
                  tl_d_angle_dR2 tl d + tl_d_angle_dR3 tl d = 0)%R).
  { rewrite H1, H2. cbn [rsub rmul rdiv of_Z R_RealOps].
    unfold Rdiv. ring. }
  split; [exact Hsum|].
  cbn [rmul R_RealOps].
  replace (tl_d_angle_dR0 tl d * tl_prefactor tl +
           tl_d_angle_dR1 tl d * tl_prefactor tl +
           tl_d_angle_dR2 tl d * tl_prefactor tl +
           tl_d_angle_dR3 tl d * tl_prefactor tl)%R
    with ((tl_d_angle_dR0 tl d + tl_d_angle_dR1 tl d +
           tl_d_angle_dR2 tl d + tl_d_angle_dR3 tl d) * tl_prefactor tl)%R
    by ring.
  rewrite Hsum. ring.
Qed.

(** ** The bond kernel exerts no net force *)

Lemma to_ull_zero_add a b : to_ull a = 0 -> to_ull (a + b) = to_ull b.
Proof.
  intros Ha. rewrite <- to_ull_add_l, Ha. reflexivity.
Qed.

Lemma three_pairs_cancel a0 b0 a1 b1 a2 b2 :
  to_ull (b0 + a0) = 0 -> to_ull (b1 + a1) = 0 -> to_ull (b2 + a2) = 0 ->
  to_ull (a0 + (b0 + (a1 + (b1 + (a2 + (b2 + 0)))))) = 0.
Proof.
  intros H0 H1 H2.
  replace (a0 + (b0 + (a1 + (b1 + (a2 + (b2 + 0))))))
    with ((b0 + a0) + ((b1 + a1) + (b2 + a2))) by ring.
  rewrite to_ull_zero_add by exact H0.
  rewrite to_ull_zero_add by exact H1.
  exact H2.
Qed.

Lemma total_atomicAdd buf i v :
  (i < length buf)%nat ->
  to_ull (total (atomicAdd buf i v)) = to_ull (total buf + v).
Proof.
  unfold atomicAdd. revert i.
  induction buf as [|x buf IH]; intros i Hi; cbn in Hi; [lia|].
  destruct i as [|i]; cbn.
  - fold (total buf). rewrite to_ull_add_l. f_equal. ring.
  - fold (total buf). fold (total (alter (fun old => to_ull (old + v)) i buf)).
    rewrite <- to_ull_add_r, IH by lia. rewrite to_ull_add_r.
    f_equal. ring.
Qed.

(** A batch whose slots all lie inside the array changes the array's total
    by the total of the batch, modulo 2^64. *)
Lemma total_apply_adds adds buf :
  Forall (fun a => (fst a < length buf)%nat) adds ->
  to_ull (total (apply_adds adds buf)) = to_ull (total buf + batch_total adds).
Proof.
  revert buf. induction adds as [|[i v] adds IH]; intros buf Hin.
  - cbn. rewrite Z.add_0_r. reflexivity.
  - apply Forall_cons in Hin as [Hi Hin]. cbn in Hi.
    cbn. change (fold_left _ adds ?b) with (apply_adds adds b).
    fold (batch_total adds).
    rewrite IH.
    + rewrite <- to_ull_add_l, total_atomicAdd by exact Hi.
      rewrite to_ull_add_l. f_equal. ring.
    + eapply Forall_impl; [exact Hin|].
      intros a Ha. cbn in Ha. rewrite atomicAdd_length. exact Ha.
Qed.

Lemma batch_total_app a1 a2 :
  batch_total (a1 ++ a2) = batch_total a1 + batch_total a2.
Proof.
  induction a1 as [|a a1 IH]; cbn; [reflexivity|].
  fold (batch_total (a1 ++ a2)). fold (batch_total a1). lia.
Qed.

Section NetForce.
Context {RealType : Type} `{RealOps RealType} `{HelperOps RealType}.

(** The encoder is odd: a value and its negation encode to numbers that
    cancel modulo 2^64. *)
Hypothesis encoder_odd :
  forall x : RealType,
  to_ull (FLOAT_TO_FIXED_BONDED (rneg x) + FLOAT_TO_FIXED_BONDED x) = 0.

(** A product changes sign with its second factor. *)
Hypothesis rmul_rneg :
  forall p x : RealType, rmul p (rneg x) = rneg (rmul p x).

Lemma lfbb_adds_dx_cancel (bl : lfbb_locals) :
  to_ull (batch_total (lfbb_adds_dx bl)) = 0.
Proof.
  unfold lfbb_adds_dx, batch_total.
  cbn [flat_map app fold_right fst snd].
  rewrite !rmul_rneg.
  apply three_pairs_cancel; apply encoder_odd.
Qed.

Lemma launch_batch_cancel B
    (bl : nat -> lfbb_locals) (sched : list nat) :
  to_ull (batch_total (launch_batch B (fun t => lfbb_adds_dx (bl t)) sched))
  = 0.
Proof.
  unfold launch_batch.
  induction sched as [|t sched IH]; cbn [flat_map]; [reflexivity|].
  rewrite batch_total_app.
  destruct (B <=? t)%nat.
  - cbn. exact IH.
  - rewrite to_ull_zero_add by apply lfbb_adds_dx_cancel. exact IH.
Qed.

Lemma launch_batch_in_range B (bl : nat -> lfbb_locals) nb (len : nat) :
  (forall t, (t < Nat.min nb B)%nat ->
     (bl_src_idx (bl t) * 3 + 2 < len)%nat /\
     (bl_dst_idx (bl t) * 3 + 2 < len)%nat) ->
  Forall (fun a => (fst a < len)%nat)
         (launch_batch B (fun t => lfbb_adds_dx (bl t)) (seq 0 nb)).
Proof.
  intros Hrange. unfold launch_batch.
  apply Forall_flat_map, Forall_forall. intros t Ht.
  apply elem_of_seq in Ht.
  destruct (Nat.leb_spec B t) as [Hle|Hlt]; [constructor|].
  destruct (Hrange t ltac:(lia)) as [Hs Hd].
  unfold lfbb_adds_dx. cbn [flat_map app].
  repeat constructor; cbn [fst]; lia.
Qed.

(** X13: when the encoder is odd and a product changes sign with its second
    factor, the log-flat-bottom bond kernel exerts no net force: if the
    force slots of every bond's two atoms lie inside the force array, the
    sum of all entries of the array is the same after the launch as before,
    modulo 2^64, because each bond adds a contribution to one atom and its
    negation to the other. *)
Theorem bond_forces_cancel :
  forall B nb coords box params bond_idxs beta dp en (buf : list Z),
  let bl := k_log_flat_bottom_bond_locals coords box params bond_idxs beta in
  (forall t, (t < Nat.min nb B)%nat ->
     (bl_src_idx (bl t) * 3 + 2 < length buf)%nat /\
     (bl_dst_idx (bl t) * 3 + 2 < length buf)%nat) ->
  to_ull
    (total
       (on_du_dx
          (k_log_flat_bottom_bond B nb coords box params bond_idxs beta)
          dp en buf)) =
  to_ull (total buf).
Proof.
  intros B nb coords box params bond_idxs beta dp en buf bl Hrange.
  rewrite (on_du_dx_lift3 _ _ _ _ _ _ _
             (k_log_flat_bottom_bond_lift3 B nb coords box params bond_idxs
                beta)).
  unfold grid.
  rewrite total_apply_adds by (apply launch_batch_in_range; exact Hrange).
  rewrite Z.add_comm. rewrite to_ull_zero_add by apply launch_batch_cancel.
  reflexivity.
Qed.

End NetForce.

Lemma R_encoder_odd (x : R) :
  to_ull (FLOAT_TO_FIXED_BONDED (rneg x) + FLOAT_TO_FIXED_BONDED x) = 0.
Proof.
  cbn. unfold R_FLOAT_TO_FIXED_BONDED.
  replace (- x * IZR FIXED_EXPONENT)%R with (- (x * IZR FIXED_EXPONENT))%R
    by ring.
  rewrite Znearbyint_opp, to_ull_add_l, to_ull_add_r.
  replace (- Znearbyint (x * IZR FIXED_EXPONENT) +
           Znearbyint (x * IZR FIXED_EXPONENT)) with 0 by ring.
  reflexivity.
Qed.

(** The example bond over the real numbers, on a force array for its two
    atoms that holds 7 in every slot. *)
Lemma bond_forces_cancel_witness :
  to_ull
    (total (on_du_dx Examples.bond_launch None None (replicate 6 7))) =
  to_ull (total (replicate 6 7)).
Proof.
  apply (bond_forces_cancel (RealType := R) R_encoder_odd
           ltac:(intros p x; cbn; ring)
           1 1 Examples.bond_coords Examples.bond_box Examples.bond_params
           Examples.bond_idxs Examples.bond_beta None None (replicate 6 7)).
  intros t Ht. assert (t = 0%nat) as -> by lia.
  split; vm_compute; lia.
Defined.

(** ** The integrator's random stream and noise array *)

Lemma write_front_length {A : Type} n (vals : nat -> A) buf :
  length (write_front n vals buf) = length buf.
Proof.
  unfold write_front.
  rewrite length_app, length_map, length_seq, length_drop. lia.
Qed.

Section LangevinStream.
Context {RealType : Type} `{RealOps RealType} `{HelperOps RealType}.
Variable Rng : Type.
Variable curandCreateGenerator : Rng.
Variable curandSetPseudoRandomGeneratorSeed : Rng -> Z -> Rng.
Variable templateCurandNormal :
  Rng -> nat -> RealType -> RealType -> (nat -> RealType) * Rng.
Variable BP : Type.
Variable runner_execute_potentials :
  list BP -> nat -> list RealType -> list RealType -> Buffers -> Buffers.
Variable update_forward_baoab :
  nat -> nat -> RealType -> option (list nat) -> list RealType ->
  list RealType -> list RealType -> list RealType -> list RealType ->
  list Z -> RealType -> list RealType * list RealType.

Local Abbreviation step :=
  (step_fwd Rng templateCurandNormal BP runner_execute_potentials
     update_forward_baoab).
Local Abbreviation steps :=
  (run_steps Rng templateCurandNormal BP runner_execute_potentials
     update_forward_baoab).
Local Abbreviation new :=
  (LangevinIntegrator_new Rng curandCreateGenerator
     curandSetPseudoRandomGeneratorSeed).

Lemma step_fwd_rng I bps x v box idxs :
  cr_rng_ Rng (fst (step I bps x v box idxs)) =
  snd (templateCurandNormal (cr_rng_ Rng I) (round_up_even (N_ Rng I * 3))
         (of_Z 0) (of_Z 1)).
Proof.
  unfold step_fwd.
  destruct (templateCurandNormal _ _ _ _) as [draw rng']. reflexivity.
Qed.

Lemma step_fwd_noise I bps x v box idxs :
  d_noise_ Rng (fst (step I bps x v box idxs)) =
  write_front (round_up_even (N_ Rng I * 3))
    (fst (templateCurandNormal (cr_rng_ Rng I) (round_up_even (N_ Rng I * 3))
            (of_Z 0) (of_Z 1)))
    (d_noise_ Rng I).
Proof.
  unfold step_fwd.
  destruct (templateCurandNormal _ _ _ _) as [draw rng']. reflexivity.
Qed.

(** X14: the generator's state after [n] steps is the seeded state advanced
    by [n] draws of [round_up_even(3 N)] standard normal variates, and
    nothing else: it does not depend on the potentials, the positions, the
    velocities, the box or the mask the steps were given. *)
Theorem rng_stream_ignores_trajectory :
  forall n (I : LangevinIntegrator RealType Rng) bps x v box idxs,
  cr_rng_ Rng (fst (steps n I bps x v box idxs)) =
  Nat.iter n
    (fun r =>
       snd (templateCurandNormal r (round_up_even (N_ Rng I * 3))
              (of_Z 0) (of_Z 1)))
    (cr_rng_ Rng I).
Proof.
  induction n as [|n IH]; intros I bps x v box idxs; [reflexivity|].
  rewrite Nat.iter_succ_r. cbn [run_steps].
  pose proof (step_fwd_rng I bps x v box idxs) as Hrng.
  pose proof (step_fwd_same_coefficients Rng templateCurandNormal BP
                runner_execute_potentials update_forward_baoab
                I bps x v box idxs) as (HN & _).
  destruct (step I bps x v box idxs) as [I' [x' v']].
  specialize (IH I' bps x' v' box idxs).
  destruct (steps n I' bps x' v' box idxs) as [I'' traj].
  cbn [fst] in *. rewrite IH, HN, Hrng. reflexivity.
Qed.

Lemma run_steps_noise_length n (I : LangevinIntegrator RealType Rng)
    bps x v box idxs :
  length (d_noise_ Rng (fst (steps n I bps x v box idxs))) =
  length (d_noise_ Rng I).
Proof.
  revert I x v. induction n as [|n IH]; intros I x v; [reflexivity|].
  cbn [run_steps].
  pose proof (step_fwd_noise I bps x v box idxs) as Hnoise.
  destruct (step I bps x v box idxs) as [I' [x' v']].
  specialize (IH I' x' v').
  destruct (steps n I' bps x' v' box idxs) as [I'' traj].
  cbn [fst] in *. rewrite IH, Hnoise. apply write_front_length.
Qed.

(** X15: every step draws exactly as many variates as the constructor
    allocated the noise array for.  After any number of steps the array
    still has [round_up_even(3 N)] entries, and the next step replaces all
    of them by its draw: no value from an earlier step, and none of what
    the allocation held, is left for the update kernel to read. *)
Theorem noise_array_is_the_last_draw :
  forall N masses temperature dt friction seed noise_garbage du_dx_garbage
         n bps x v box idxs bps' x' v' box' idxs',
  let I :=
    fst (steps n
           (new N masses temperature dt friction seed
                noise_garbage du_dx_garbage)
           bps x v box idxs) in
  let draw :=
    fst (templateCurandNormal (cr_rng_ Rng I) (round_up_even (N * 3))
           (of_Z 0) (of_Z 1)) in
  length (d_noise_ Rng I) = round_up_even (N * 3) /\
  d_noise_ Rng (fst (step I bps' x' v' box' idxs')) =
  map draw (seq 0 (round_up_even (N * 3))).
Proof.
  intros N masses temperature dt friction seed g1 g2
         n bps x v box idxs bps' x' v' box' idxs' I draw.
  assert (Hlen : length (d_noise_ Rng I) = round_up_even (N * 3)).
  { unfold I. rewrite run_steps_noise_length. cbn.
    apply cudaSafeMalloc_array_length. }
  assert (HN : N_ Rng I = N).
  { pose proof (run_steps_same_coefficients Rng templateCurandNormal BP
                  runner_execute_potentials update_forward_baoab n
                  (new N masses temperature dt friction seed g1 g2)
                  bps x v box idxs) as (HN & _).
    exact HN. }
  split; [exact Hlen|].
  rewrite step_fwd_noise, HN. fold draw.
  apply write_front_whole. exact Hlen.
Qed.

End LangevinStream.

(** ** What a launch leaves alone, and the total energy *)

(** A batch does not touch the slots it does not name. *)
Lemma apply_adds_untouched adds buf s :
  Forall (fun a => fst a <> s) adds ->
  apply_adds adds buf !! s = buf !! s.
Proof.
  revert buf. induction adds as [|[i v] adds IH]; intros buf Hs;
    [reflexivity|].
  apply Forall_cons in Hs as [Hi Hs]. cbn in Hi.
  cbn. change (fold_left _ adds ?b) with (apply_adds adds b).
  rewrite IH by exact Hs. rewrite atomicAdd_lookup.
  rewrite decide_False by congruence. reflexivity.
Qed.

Lemma total_app l1 l2 : total (l1 ++ l2) = total l1 + total l2.
Proof.
  induction l1 as [|x l1 IH]; cbn; [reflexivity|].
  fold (total (l1 ++ l2)). fold (total l1). lia.
Qed.

(** The total of a launch's batch of one addition per term. *)
Lemma batch_total_singletons T (slot : nat -> nat) (e : nat -> Z) nt :
  batch_total (launch_batch T (fun t => [(slot t, e t)]) (seq 0 nt)) =
  total (map e (seq 0 (Nat.min nt T))).
Proof.
  induction nt as [|n IH]; [reflexivity|].
  rewrite seq_S. unfold launch_batch in *.
  rewrite flat_map_app, batch_total_app, IH. cbn [flat_map Nat.add app].
  destruct (Nat.leb_spec T n) as [Hle|Hlt].
  - replace (Nat.min (S n) T) with (Nat.min n T) by lia. cbn. lia.
  - replace (Nat.min (S n) T) with (S n) by lia.
    replace (Nat.min n T) with n by lia.
    rewrite seq_S, map_app, total_app. cbn. lia.
Qed.

Section Frames.
Context {RealType : Type} `{RealOps RealType} `{HelperOps RealType}.

(** X16: a torsion launch changes only the force slots of the atoms of its
    terms, in the first three dimensions: a slot that is none of
    [a * D + d], for [a] one of the four atoms of a term the grid covers
    and [d < 3], holds after the launch what it held before. *)
Theorem torsion_force_frame :
  forall D T nt coords params torsion_idxs dp en (buf : list Z) (s : nat),
  let tl := k_periodic_torsion_locals D coords params torsion_idxs in
  (forall t d, (t < Nat.min nt T)%nat -> (d < 3)%nat ->
     s <> (tl_i_idx (tl t) * D + d)%nat /\
     s <> (tl_j_idx (tl t) * D + d)%nat /\
     s <> (tl_k_idx (tl t) * D + d)%nat /\
     s <> (tl_l_idx (tl t) * D + d)%nat) ->
  on_du_dx (k_periodic_torsion D T nt coords params torsion_idxs) dp en buf
    !! s = buf !! s.
Proof.
  intros D T nt coords params torsion_idxs dp en buf s tl Hout.
  rewrite (on_du_dx_lift3 _ _ _ _ _ _ _
             (k_periodic_torsion_lift3 D T nt coords params torsion_idxs)).
  apply apply_adds_untouched. unfold launch_batch, grid.
  apply Forall_flat_map, Forall_forall. intros t Ht.
  apply elem_of_seq in Ht.
  destruct (Nat.leb_spec T t) as [Hle|Hlt]; [constructor|].
  pose proof (Hout t 0%nat ltac:(lia) ltac:(lia)) as (? & ? & ? & ?).
  pose proof (Hout t 1%nat ltac:(lia) ltac:(lia)) as (? & ? & ? & ?).
  pose proof (Hout t 2%nat ltac:(lia) ltac:(lia)) as (? & ? & ? & ?).
  unfold torsion_adds_dx. cbn [flat_map app].
  repeat constructor; cbn [fst]; fold tl; congruence.
Qed.

(** X17: a bond launch changes only the force slots of the two atoms of its
    bonds: a slot that is none of [a * 3 + d], for [a] the source or the
    destination atom of a bond the grid covers and [d < 3], holds after the
    launch what it held before. *)
Theorem bond_force_frame :
  forall B nb coords box params bond_idxs beta dp en (buf : list Z) (s : nat),
  let bl := k_log_flat_bottom_bond_locals coords box params bond_idxs beta in
  (forall t d, (t < Nat.min nb B)%nat -> (d < 3)%nat ->
     s <> (bl_src_idx (bl t) * 3 + d)%nat /\
     s <> (bl_dst_idx (bl t) * 3 + d)%nat) ->
  on_du_dx (k_log_flat_bottom_bond B nb coords box params bond_idxs beta)
    dp en buf !! s = buf !! s.
Proof.
  intros B nb coords box params bond_idxs beta dp en buf s bl Hout.
  rewrite (on_du_dx_lift3 _ _ _ _ _ _ _
             (k_log_flat_bottom_bond_lift3 B nb coords box params bond_idxs
                beta)).
  apply apply_adds_untouched. unfold launch_batch, grid.
  apply Forall_flat_map, Forall_forall. intros t Ht.
  apply elem_of_seq in Ht.
  destruct (Nat.leb_spec B t) as [Hle|Hlt]; [constructor|].
  pose proof (Hout t 0%nat ltac:(lia) ltac:(lia)) as (? & ?).
  pose proof (Hout t 1%nat ltac:(lia) ltac:(lia)) as (? & ?).
  pose proof (Hout t 2%nat ltac:(lia) ltac:(lia)) as (? & ?).
  unfold lfbb_adds_dx. cbn [flat_map app].
  repeat constructor; cbn [fst]; fold bl; congruence.
Qed.

(** X18: the torsion kernel spreads the energy over the per-atom array
    without losing any: when the first atom of every term the grid covers
    has a slot in the energy array, the sum of all entries of the array
    grows by the sum of the encoded energies of those terms, modulo
    2^64. *)
Theorem torsion_total_energy :
  forall D T nt coords params torsion_idxs dx dp (buf : list Z),
  let tl := k_periodic_torsion_locals D coords params torsion_idxs in
  let e := fun t => FLOAT_TO_FIXED_BONDED (torsion_energy (tl t)) in
  (forall t, (t < Nat.min nt T)%nat -> (tl_i_idx (tl t) < length buf)%nat) ->
  to_ull
    (total
       (on_u (k_periodic_torsion D T nt coords params torsion_idxs) dx dp buf))
  = to_ull (total buf + total (map e (seq 0 (Nat.min nt T)))).
Proof.
  intros D T nt coords params torsion_idxs dx dp buf tl e Hrange.
  rewrite (on_u_lift3 _ _ _ _ _ _ _
             (k_periodic_torsion_lift3 D T nt coords params torsion_idxs)).
  unfold grid.
  change (launch_batch T
            (fun t =>
               torsion_adds_u
                 (k_periodic_torsion_locals D coords params torsion_idxs t))
            (seq 0 nt))
    with (launch_batch T (fun t => [(tl_i_idx (tl t), e t)]) (seq 0 nt)).
  rewrite total_apply_adds.
  - rewrite batch_total_singletons. reflexivity.
  - unfold launch_batch. apply Forall_flat_map, Forall_forall.
    intros t Ht. apply elem_of_seq in Ht.
    destruct (Nat.leb_spec T t) as [Hle|Hlt]; [constructor|].
    repeat constructor. cbn [fst]. apply Hrange. lia.
Qed.

End Frames.

(** One torsion over atoms 0 to 3 of the runner example, in an array with a
    fifth atom: the x slot of atom 4 is left alone. *)
Lemma torsion_force_frame_witness :
  on_du_dx
    (k_periodic_torsion 3 1 1 RunnerExample.coords [1; 0; 2]%R
       [0; 1; 2; 3]%nat)
    None None (replicate 15 7) !! 12%nat =
  replicate 15 7 !! 12%nat.
Proof.
  apply (torsion_force_frame (RealType := R) 3 1 1 RunnerExample.coords
           [1; 0; 2]%R [0; 1; 2; 3]%nat None None (replicate 15 7) 12%nat).
  intros t d Ht Hd. assert (t = 0%nat) as -> by lia.
  repeat split; vm_compute; lia.
Defined.

(** The example bond joins atoms 0 and 1; in an array with a third atom the
    x slot of atom 2 is left alone. *)
Lemma bond_force_frame_witness :
  on_du_dx Examples.bond_launch None None (replicate 9 7) !! 6%nat =
  replicate 9 7 !! 6%nat.
Proof.
  apply (bond_force_frame (RealType := R) 1 1 Examples.bond_coords
           Examples.bond_box Examples.bond_params Examples.bond_idxs
           Examples.bond_beta None None (replicate 9 7) 6%nat).
  intros t d Ht Hd. assert (t = 0%nat) as -> by lia.
  split; vm_compute; lia.
Defined.

(** One torsion whose first atom is atom 0, on a per-atom energy array of
    four entries. *)
Lemma torsion_total_energy_witness :
  let tl :=
    k_periodic_torsion_locals 3 RunnerExample.coords [1; 0; 2]%R
      [0; 1; 2; 3]%nat in
  to_ull
    (total
       (on_u
          (k_periodic_torsion 3 1 1 RunnerExample.coords [1; 0; 2]%R
             [0; 1; 2; 3]%nat)
          None None (replicate 4 7))) =
  to_ull
    (total (replicate 4 7) +
     total (map (fun t => FLOAT_TO_FIXED_BONDED (torsion_energy (tl t)))
                (seq 0 (Nat.min 1 1)))).
Proof.
  apply (torsion_total_energy (RealType := R) 3 1 1 RunnerExample.coords
           [1; 0; 2]%R [0; 1; 2; 3]%nat None None (replicate 4 7)).
  intros t Ht. assert (t = 0%nat) as -> by lia.
  vm_compute. lia.
Defined.
